(** * An accessible modal form: validation, form state and dialog lifecycle

    A shallow embedding of [src/Modal.tsx], [src/Page.tsx] and
    [src/types.ts].  JavaScript strings are sequences of UTF-16 code
    units; React state hooks are read from the snapshot of the current
    render and written through an update queue; the document (focus,
    scroll lock, listeners, timers) is an explicit environment. *)

From Stdlib Require Import NArith List Bool Lia.
From stdpp Require Import base decidable countable gmap list option.

Open Scope N_scope.

(** ** JavaScript strings *)

Module JS.

(** A string is its sequence of UTF-16 code units; [length] counts them,
    as [String.prototype.length] does. *)
Definition jsstring := list N.

(** ECMAScript WhiteSpace and LineTerminator code points: what
    [String.prototype.trim] strips and what the class escape [\s]
    matches. *)
Definition isWhiteSpace (c : N) : bool :=
  (c =? 9) || (c =? 10) || (c =? 11) || (c =? 12) || (c =? 13) ||
  (c =? 32) || (c =? 160) || (c =? 5760) ||
  ((8192 <=? c) && (c <=? 8202)) ||
  (c =? 8232) || (c =? 8233) || (c =? 8239) || (c =? 8287) ||
  (c =? 12288) || (c =? 65279).

Fixpoint trimStart (s : jsstring) : jsstring :=
  match s with
  | [] => []
  | c :: s' => if isWhiteSpace c then trimStart s' else s
  end.

Definition trimEnd (s : jsstring) : jsstring := rev (trimStart (rev s)).

Definition trim (s : jsstring) : jsstring := trimEnd (trimStart s).

(** ToBoolean on a string: only the empty string is falsy. *)
Definition truthy (s : jsstring) : bool :=
  match s with
  | [] => false
  | _ :: _ => true
  end.

(** ToBoolean on [string | undefined]. *)
Definition truthyOpt (o : option jsstring) : bool :=
  match o with
  | None => false
  | Some s => truthy s
  end.

End JS.

Import JS.

(** ** Regular expressions

    The fragment of the pattern language used by [emailRegex]: character
    classes, concatenation and [+].  [test] decides whether the whole
    string is matched, which is what [RegExp.prototype.test] computes
    for a pattern anchored by [^] and [$] (no flags). *)

Module RegExp.

Inductive RegExp : Type :=
| Never : RegExp
| Empty : RegExp
| Class : (N -> bool) -> RegExp
| Seq : RegExp -> RegExp -> RegExp
| Alt : RegExp -> RegExp -> RegExp
| Star : RegExp -> RegExp.

(** [r+] *)
Definition Plus (r : RegExp) : RegExp := Seq r (Star r).

Fixpoint nullable (r : RegExp) : bool :=
  match r with
  | Never => false
  | Empty => true
  | Class _ => false
  | Seq r1 r2 => nullable r1 && nullable r2
  | Alt r1 r2 => nullable r1 || nullable r2
  | Star _ => true
  end.

Fixpoint derive (c : N) (r : RegExp) : RegExp :=
  match r with
  | Never => Never
  | Empty => Never
  | Class p => if p c then Empty else Never
  | Seq r1 r2 =>
      if nullable r1
      then Alt (Seq (derive c r1) r2) (derive c r2)
      else Seq (derive c r1) r2
  | Alt r1 r2 => Alt (derive c r1) (derive c r2)
  | Star r1 => Seq (derive c r1) (Star r1)
  end.

Fixpoint test (r : RegExp) (s : jsstring) : bool :=
  match s with
  | [] => nullable r
  | c :: s' => test (derive c r) s'
  end.

(** The strings a pattern denotes. *)
Inductive Matches : RegExp -> jsstring -> Prop :=
| MEmpty : Matches Empty []
| MClass p c : p c = true -> Matches (Class p) [c]
| MSeq r1 r2 s1 s2 :
    Matches r1 s1 -> Matches r2 s2 -> Matches (Seq r1 r2) (s1 ++ s2)
| MAltL r1 r2 s : Matches r1 s -> Matches (Alt r1 r2) s
| MAltR r1 r2 s : Matches r2 s -> Matches (Alt r1 r2) s
| MStarNil r : Matches (Star r) []
| MStarApp r s1 s2 :
    Matches r s1 -> Matches (Star r) s2 -> Matches (Star r) (s1 ++ s2).

End RegExp.

Import RegExp.

(** ** Form data, errors and validation ([src/types.ts], [Modal.tsx] 26-49) *)

(** [interface FormData { name: string; email: string }] *)
Record FormData : Type := mkFormData { name : jsstring; email : jsstring }.

(** [keyof FormData] *)
Inductive Field : Type := key_name | key_email.

#[global] Instance Field_eq_dec : EqDecision Field.
Proof. solve_decision. Defined.

#[global] Instance Field_countable : Countable Field.
Proof.
  refine (inj_countable'
            (fun f => match f with key_name => false | key_email => true end)
            (fun b => if b then key_email else key_name) _).
  intros []; reflexivity.
Defined.

(** [data[field]] *)
Definition getField (data : FormData) (field : Field) : jsstring :=
  match field with
  | key_name => name data
  | key_email => email data
  end.

(** [{ ...prev, [field]: value }] *)
Definition setField (prev : FormData) (field : Field) (value : jsstring) : FormData :=
  match field with
  | key_name => mkFormData value (email prev)
  | key_email => mkFormData (name prev) value
  end.

(** [Object.keys(data)], in insertion order. *)
Definition keysFormData (data : FormData) : list Field := [key_name; key_email].

(** [interface FormErrors { name?: string; email?: string }].  A key may
    be absent, or present holding a message or [undefined] (what
    [setErrors(prev => ({ ...prev, [field]: error }))] stores when the
    field is valid). *)
Abbreviation FormErrors := (gmap Field (option jsstring)).

(** [errors.name], [errors.email]: an absent key reads as [undefined]. *)
Definition readError (errors : FormErrors) (field : Field) : option jsstring :=
  mjoin (errors !! field).

(** [Object.keys(formErrors).length] *)
Definition keysLength (errors : FormErrors) : nat := size errors.

Module Messages.
(** '이름을 입력해주세요.' *)
Definition nameRequired : jsstring :=
  [51060; 47492; 51012; 32; 51077; 47141; 54644; 51452; 49464; 50836; 46].
(** '이름은 2글자 이상 입력해주세요.' *)
Definition nameTooShort : jsstring :=
  [51060; 47492; 51008; 32; 50; 44544; 51088; 32; 51060; 49345; 32;
   51077; 47141; 54644; 51452; 49464; 50836; 46].
(** '이메일을 입력해주세요.' *)
Definition emailRequired : jsstring :=
  [51060; 47700; 51068; 51012; 32; 51077; 47141; 54644; 51452; 49464; 50836; 46].
(** '올바른 이메일 형식을 입력해주세요.' *)
Definition emailInvalid : jsstring :=
  [50732; 48148; 47480; 32; 51060; 47700; 51068; 32; 54805; 49885; 51012; 32;
   51077; 47141; 54644; 51452; 49464; 50836; 46].
End Messages.

(** [[^\s@]] *)
Definition notSpaceNorAt (c : N) : bool := negb (isWhiteSpace c || (c =? 64)).

(** [/^[^\s@]+@[^\s@]+\.[^\s@]+$/] *)
Definition emailRegex : RegExp :=
  Seq (Plus (Class notSpaceNorAt))
    (Seq (Class (N.eqb 64))
       (Seq (Plus (Class notSpaceNorAt))
          (Seq (Class (N.eqb 46))
             (Plus (Class notSpaceNorAt))))).

Definition validateField (field : Field) (value : jsstring) : option jsstring :=
  match field with
  | key_name =>
      if negb (truthy (trim value)) then Some Messages.nameRequired
      else if (length (trim value) <? 2)%nat then Some Messages.nameTooShort
      else None
  | key_email =>
      if negb (truthy (trim value)) then Some Messages.emailRequired
      else if negb (test emailRegex value) then Some Messages.emailInvalid
      else None
  end.

Definition validateForm (data : FormData) : FormErrors :=
  fold_left
    (fun (newErrors : FormErrors) field =>
       let error := validateField field (getField data field) in
       if truthyOpt error then <[field := error]> newErrors else newErrors)
    (keysFormData data) ∅.

(** ** Page state and the document ([src/types.ts], [src/Page.tsx]) *)

(** A promise created by [openFormModal] is known by the order of its
    creation; its [resolve] function is known by the same number. *)
Definition PromiseId := nat.

(** [type ModalResult = FormData | null] *)
Definition ModalResult := option FormData.

(** [interface ModalState { isOpen: boolean; resolve?: ... }] *)
Record ModalState : Type := mkModalState {
  isOpen : bool;
  resolve : option PromiseId
}.

(** The nodes of the page that matter for focus and event dispatch: the
    elements rendered by [Page] and [Modal], and elements that do not
    belong to the application. *)
Inductive Elem : Type :=
| Body | OpenButton
| Overlay | Panel | NameInput | EmailInput | CancelButton | SubmitButton
| Foreign (n : nat).

#[global] Instance Elem_eq_dec : EqDecision Elem.
Proof. solve_decision. Defined.

(** The [keydown] listener that one run of the effect registers on
    [document].  It calls the [onClose] it was created with, which is
    [handleCloseModal] of the [Page] render whose [modalState] is
    [listenerScope]. *)
Record Listener : Type := mkListener {
  listenerId : nat;
  listenerScope : ModalState
}.

(** A pending [setTimeout]. *)
Record Timer : Type := mkTimer {
  timerId : nat;
  timerDelay : N
}.

(** Document-level state. *)
Record Env : Type := mkEnv {
  activeElement : option Elem;      (* document.activeElement *)
  bodyOverflow : jsstring;          (* document.body.style.overflow *)
  keydownListeners : list Listener; (* on document, in registration order *)
  timers : list Timer;              (* pending timeouts *)
  dialogRendered : bool;            (* the dialog subtree is in the document *)
  panelFocusable : list Elem;       (* panel.querySelectorAll(focusableSelectors) *)
  detached : list nat;              (* foreign elements removed from the document *)
  reducedMotion : bool              (* matchMedia('(prefers-reduced-motion: reduce)').matches,
                                       taken not to change while the page is loaded *)
}.

(** [panel.contains(node)] *)
Definition panelContains (node : Elem) : bool :=
  match node with
  | Panel | NameInput | EmailInput | CancelButton | SubmitButton => true
  | _ => false
  end.

Definition inDialog (node : Elem) : bool :=
  match node with
  | Overlay => true
  | _ => panelContains node
  end.

Definition connected (env : Env) (node : Elem) : bool :=
  match node with
  | Body | OpenButton => true
  | Foreign n => negb (bool_decide (n ∈ detached env))
  | _ => dialogRendered env
  end.

(** ** Event handlers as a state monad

    A handler reads the hooks of the render it was created in (its
    arguments) and writes to the update queues; React applies the queued
    updates when the handler has returned. *)

(** [Partial<Record<keyof FormData, boolean>>] *)
Abbreviation Touched := (gmap Field bool).

(** [touched[field]] as a condition. *)
Definition isTouched (touched : Touched) (field : Field) : bool :=
  default false (touched !! field).

(** The three state hooks of [Modal]. *)
Record ModalHooks : Type := mkHooks {
  formData : FormData;
  errors : FormErrors;
  touched : Touched
}.

Definition initialHooks : ModalHooks :=
  {| formData := mkFormData [] []; errors := ∅; touched := ∅ |}.

(** What a handler can be seen to do, apart from touching the document:
    the callbacks it invokes and the state updates it queues. *)
Inductive Action : Type :=
| OnClose                                         (* onClose() *)
| OnSubmit (data : FormData)                      (* onSubmit(data) *)
| Resolve (p : PromiseId) (result : ModalResult)  (* the resolve of promise p *)
| SetFormData (next : FormData)
| SetErrors (next : gmap Field (option jsstring))
| SetTouched (next : gmap Field bool)
| SetModalState (next : ModalState).

Record Batch : Type := mkBatch {
  queuedHooks : ModalHooks;             (* Modal hooks after the queued updates *)
  queuedModalState : option ModalState; (* last setModalState, if any *)
  dom : Env;
  trace : list Action;                  (* what the handlers did, oldest first *)
  propagationStopped : bool;
  defaultPrevented : bool
}.

Definition Handler (A : Type) : Type := Batch -> A * Batch.

#[global] Instance Handler_ret : MRet Handler := fun A x b => (x, b).
#[global] Instance Handler_bind : MBind Handler :=
  fun A B f m b => let '(x, b') := m b in f x b'.

Definition exec (h : Handler unit) (b : Batch) : Batch := snd (h b).

Definition gets {A} (f : Batch -> A) : Handler A := fun b => (f b, b).
Definition modify (f : Batch -> Batch) : Handler unit := fun b => (tt, f b).

Definition setFormData (upd : FormData -> FormData) : Handler unit :=
  modify (fun b =>
    let h := queuedHooks b in
    let next := upd (formData h) in
    mkBatch (mkHooks next (errors h) (touched h))
      (queuedModalState b) (dom b) (trace b ++ [SetFormData next])
      (propagationStopped b) (defaultPrevented b)).

Definition setErrors (upd : FormErrors -> FormErrors) : Handler unit :=
  modify (fun b =>
    let h := queuedHooks b in
    let next := upd (errors h) in
    mkBatch (mkHooks (formData h) next (touched h))
      (queuedModalState b) (dom b) (trace b ++ [SetErrors next])
      (propagationStopped b) (defaultPrevented b)).

Definition setTouched (upd : Touched -> Touched) : Handler unit :=
  modify (fun b =>
    let h := queuedHooks b in
    let next := upd (touched h) in
    mkBatch (mkHooks (formData h) (errors h) next)
      (queuedModalState b) (dom b) (trace b ++ [SetTouched next])
      (propagationStopped b) (defaultPrevented b)).

Definition setModalState (next : ModalState) : Handler unit :=
  modify (fun b =>
    mkBatch (queuedHooks b) (Some next) (dom b) (trace b ++ [SetModalState next])
      (propagationStopped b) (defaultPrevented b)).

Definition called (c : Action) : Handler unit :=
  modify (fun b =>
    mkBatch (queuedHooks b) (queuedModalState b) (dom b) (trace b ++ [c])
      (propagationStopped b) (defaultPrevented b)).

Definition stopPropagation : Handler unit :=
  modify (fun b =>
    mkBatch (queuedHooks b) (queuedModalState b) (dom b) (trace b)
      true (defaultPrevented b)).

Definition preventDefault : Handler unit :=
  modify (fun b =>
    mkBatch (queuedHooks b) (queuedModalState b) (dom b) (trace b)
      (propagationStopped b) true).

(** The elements that [focus()] can give focus to: the inputs and the
    buttons, and the foreign elements, which are those that had focus at
    some time.  The body and the two [div]s of the dialog have no
    [tabindex]: [focus()] on them does nothing. *)
Definition focusable (node : Elem) : bool :=
  match node with
  | Body | Overlay | Panel => false
  | _ => true
  end.

(** [node.focus()]: nothing happens when the node cannot take focus or
    is not in the document. *)
Definition focusEnv (node : Elem) (env : Env) : Env :=
  if focusable node && connected env node
  then mkEnv (Some node) (bodyOverflow env) (keydownListeners env) (timers env)
         (dialogRendered env) (panelFocusable env) (detached env) (reducedMotion env)
  else env.

(** The user or the browser moves focus: to an element that can take it,
    or away from every element, which leaves the body as
    [document.activeElement]. *)
Definition moveFocusEnv (node : Elem) (env : Env) : Env :=
  match node with
  | Body =>
      mkEnv (Some Body) (bodyOverflow env) (keydownListeners env) (timers env)
        (dialogRendered env) (panelFocusable env) (detached env) (reducedMotion env)
  | _ => focusEnv node env
  end.

Definition focus (node : Elem) : Handler unit :=
  modify (fun b =>
    mkBatch (queuedHooks b) (queuedModalState b) (focusEnv node (dom b)) (trace b)
      (propagationStopped b) (defaultPrevented b)).

(** [node?.focus()] *)
Definition focusOpt (node : option Elem) : Handler unit :=
  match node with
  | Some n => focus n
  | None => mret tt
  end.

(** ** Page handlers ([src/Page.tsx] 8-27) *)

(** [openFormModal]: the executor of the new promise (number [fresh])
    stores its [resolve] in the page state. *)
Definition openFormModal (fresh : PromiseId) : Handler PromiseId :=
  setModalState (mkModalState true (Some fresh)) ;;
  mret fresh.

Definition handleCloseModal (modalState : ModalState) : Handler unit :=
  match resolve modalState with
  | Some p => called (Resolve p None)
  | None => mret tt
  end ;;
  setModalState (mkModalState false None).

Definition handleFormSubmit (modalState : ModalState) (data : FormData) : Handler unit :=
  match resolve modalState with
  | Some p => called (Resolve p (Some data))
  | None => mret tt
  end ;;
  setModalState (mkModalState false None).

(** [handleOpenModal] up to its [await]; what follows the [await] only
    reports the result. *)
Definition handleOpenModal (fresh : PromiseId) : Handler unit :=
  openFormModal fresh ;; mret tt.

(** [interface ModalProps] *)
Record ModalProps : Type := mkProps {
  propsIsOpen : bool;
  onClose : Handler unit;
  onSubmit : FormData -> Handler unit
}.

(** [<Modal isOpen={modalState.isOpen} onClose={handleCloseModal}
    onSubmit={handleFormSubmit} />] *)
Definition pageProps (modalState : ModalState) : ModalProps :=
  {| propsIsOpen := isOpen modalState;
     onClose := handleCloseModal modalState;
     onSubmit := handleFormSubmit modalState |}.

(** ** Modal handlers ([src/Modal.tsx] 76-103, 132-172) *)

Definition callOnClose (props : ModalProps) : Handler unit :=
  called OnClose ;; onClose props.

Definition callOnSubmit (props : ModalProps) (data : FormData) : Handler unit :=
  called (OnSubmit data) ;; onSubmit props data.

Definition allTouched : Touched := {[ key_name := true; key_email := true ]}.

Definition handleSubmit (props : ModalProps) (snap : ModalHooks) : Handler unit :=
  preventDefault ;;
  setTouched (fun _ => allTouched) ;;
  let formErrors := validateForm (formData snap) in
  setErrors (fun _ => formErrors) ;;
  if decide (keysLength formErrors = 0%nat) then
    callOnSubmit props (formData snap) ;;
    setFormData (fun _ => mkFormData [] []) ;;
    setErrors (fun _ => ∅) ;;
    setTouched (fun _ => ∅)
  else mret tt.

Definition handleInputChange (snap : ModalHooks) (field : Field) (value : jsstring)
  : Handler unit :=
  setFormData (fun prev => setField prev field value) ;;
  if isTouched (touched snap) field then
    let error := validateField field value in
    setErrors (fun prev => <[field := error]> prev)
  else mret tt.

Definition handleBlur (snap : ModalHooks) (field : Field) : Handler unit :=
  setTouched (fun prev => <[field := true]> prev) ;;
  let error := validateField field (getField (formData snap) field) in
  setErrors (fun prev => <[field := error]> prev).

Definition handleOverlayClick (props : ModalProps) (target currentTarget : Elem)
  : Handler unit :=
  if decide (target = currentTarget) then callOnClose props else mret tt.

Inductive Key : Type := Escape | Tab | OtherKey.

Record KeyboardEvent : Type := mkKey { key : Key; shiftKey : bool }.

(** [modalRef.current] *)
Definition modalRef (env : Env) : option Elem :=
  if dialogRendered env then Some Panel else None.

(** [getFocusableElements(container)]; the only container it is called
    with is the panel. *)
Definition getFocusableElements (container : Elem) : Handler (list Elem) :=
  gets (fun b => panelFocusable (dom b)).

(** [container.contains(node)], [false] on [null]. *)
Definition containsNode (container : Elem) (node : option Elem) : bool :=
  match node with
  | Some n => panelContains n
  | None => false
  end.

(** [a === b] between [document.activeElement] ([null] when there is
    none) and an array element ([undefined] when out of range). *)
Definition sameNode (a b : option Elem) : bool :=
  match a, b with
  | Some x, Some y => bool_decide (x = y)
  | _, _ => false
  end.

Definition handleKeyDown (props : ModalProps) (e : KeyboardEvent) : Handler unit :=
  match key e with
  | Escape => callOnClose props
  | Tab =>
      current ← gets (fun b => modalRef (dom b));
      match current with
      | None => mret tt
      | Some panel =>
          focusableElements ← getFocusableElements panel;
          let firstElement := list.head focusableElements in
          let lastElement := list.last focusableElements in
          if decide (length focusableElements = 0%nat) then mret tt
          else
            active ← gets (fun b => activeElement (dom b));
            if shiftKey e then
              if sameNode active firstElement || negb (containsNode panel active)
              then preventDefault ;; focusOpt lastElement
              else mret tt
            else
              if sameNode active lastElement || negb (containsNode panel active)
              then preventDefault ;; focusOpt firstElement
              else mret tt
      end
  | OtherKey => mret tt
  end.

(** ** Rendering and the lifecycle effect ([src/Modal.tsx] 66-130) *)

(** What [querySelectorAll(focusableSelectors)] finds in the rendered
    panel, in document order: the two inputs and the two buttons. *)
Definition renderedFocusable : list Elem :=
  [NameInput; EmailInput; CancelButton; SubmitButton].

(** The document after React has committed a render with [isOpen = open]:
    [Modal] returns [null] when closed, which removes the dialog; focus
    that was inside a removed subtree falls back to the body. *)
Definition commitDom (open : bool) (env : Env) : Env :=
  mkEnv
    (match activeElement env with
     | Some n => if negb open && inDialog n then Some Body else Some n
     | None => None
     end)
    (bodyOverflow env) (keydownListeners env) (timers env)
    open (if open then renderedFocusable else []) (detached env) (reducedMotion env).

(** What the cleanup function returned by a run of the effect closes
    over: its [handleKeyDown] and its [focusTimeout]. *)
Record Cleanup : Type := mkCleanup {
  registered : Listener;
  focusTimeout : nat
}.

Record System : Type := mkSystem {
  modalState : ModalState;             (* state hook of Page *)
  hooks : ModalHooks;                  (* state hooks of Modal *)
  lastFocusedElement : option Elem;    (* ref of Modal *)
  effectCleanup : option Cleanup;      (* cleanup of the last run of the effect *)
  document : Env;
  fresh : nat;                         (* next promise, listener or timer number *)
  history : list Action                (* what the handlers did so far, oldest first *)
}.

(** 'hidden' *)
Definition hidden : jsstring := [104; 105; 100; 100; 101; 110].

(** What the function returned at lines 114-127 does to the document:
    it removes the listener, unlocks scrolling, clears the timer and
    calls [focus()] on the element held by [lastFocusedElement].  When
    the dialog closes its inputs have left the document before this
    runs.  When it stays open (the effect runs again because [onClose]
    is a new function) the open button has been activated, which, under
    the backdrop, the keyboard alone can do, with focus on the button:
    in neither case does the call take focus from an input. *)
Definition cleanupEnv (c : Cleanup) (captured : option Elem) (env : Env) : Env :=
  let env1 :=
    mkEnv (activeElement env)
      []
      (filter (fun l => listenerId l ≠ listenerId (registered c)) (keydownListeners env))
      (filter (fun t => timerId t ≠ focusTimeout c) (timers env))
      (dialogRendered env) (panelFocusable env) (detached env) (reducedMotion env) in
  match captured with
  | Some node => focusEnv node env1
  | None => env1
  end.

Definition runCleanup (c : Cleanup) (s : System) : System :=
  mkSystem (modalState s) (hooks s) (lastFocusedElement s) None
    (cleanupEnv c (lastFocusedElement s) (document s)) (fresh s) (history s).

(** The body of the effect, lines 67-112. *)
Definition runEffect (s : System) : System :=
  if negb (isOpen (modalState s)) then
    mkSystem (modalState s) (hooks s) (lastFocusedElement s) None
      (document s) (fresh s) (history s)
  else
    let env := document s in
    let handleKeyDownListener := mkListener (fresh s) (modalState s) in
    let focusDelay := if reducedMotion env then 0 else 100 in
    let timeout := mkTimer (S (fresh s)) focusDelay in
    mkSystem (modalState s) (hooks s)
      (activeElement env)
      (Some (mkCleanup handleKeyDownListener (timerId timeout)))
      (mkEnv (activeElement env) hidden
         (keydownListeners env ++ [handleKeyDownListener])
         (timers env ++ [timeout])
         (dialogRendered env) (panelFocusable env) (detached env) (reducedMotion env))
      (S (S (fresh s))) (history s).

(** A render of [Page] after [setModalState]: [handleCloseModal] is a new
    function, so the dependencies of the effect have changed; React
    updates the document, runs the previous cleanup and then the effect. *)
Definition renderPage (next : ModalState) (s : System) : System :=
  let s1 :=
    mkSystem next (hooks s) (lastFocusedElement s) (effectCleanup s)
      (commitDom (isOpen next) (document s)) (fresh s) (history s) in
  let s2 :=
    match effectCleanup s1 with
    | Some c => runCleanup c s1
    | None => s1
    end in
  runEffect s2.

(** ** Events and their dispatch *)

Inductive EventType : Type := click | keydown.

(** What can happen to the page.  The changes, blurs and submits that
    the browser derives from clicks and key presses are events of their
    own, as is every move of the focus by the user: an input that the
    user leaves sees [Blur] besides [FocusMoved].  The blur caused by a
    [focus()] of the program is part of the step that calls it, see
    [withFocusOut]. *)
Inductive Event : Type :=
| Click (target : Elem)
| KeyDown (e : KeyboardEvent)                (* at the focused element *)
| Submit                                     (* the form's submit event *)
| Change (field : Field) (value : jsstring)  (* onChange of an input *)
| Blur (field : Field)                       (* onBlur of an input *)
| TimerFired (id : nat)                      (* a pending timer fires *)
| FocusMoved (node : Elem)                   (* the user moves focus, to the body: drops it *)
| Detach (n : nat).                          (* a foreign element leaves the document *)

(** The rendered ancestors of a node that carry React handlers, from the
    node outwards. *)
Definition pathToRoot (target : Elem) : list Elem :=
  match target with
  | NameInput | EmailInput | CancelButton | SubmitButton => [target; Panel; Overlay]
  | Panel => [Panel; Overlay]
  | Overlay => [Overlay]
  | OpenButton => [OpenButton]
  | _ => []
  end.

(** The handlers attached in the JSX of [Page] and [Modal]. *)
Definition reactHandler (props : ModalProps) (fresh : PromiseId)
    (type : EventType) (target currentTarget : Elem) : Handler unit :=
  match type, currentTarget with
  | click, OpenButton => handleOpenModal fresh
  | click, Overlay => handleOverlayClick props target currentTarget
  | click, Panel => stopPropagation
  | keydown, Panel => stopPropagation
  | click, CancelButton => callOnClose props
  | _, _ => mret tt
  end.

(** Bubbling: handlers run from the target outwards until one of them
    stops the propagation. *)
Fixpoint bubble (on : Elem -> Handler unit) (path : list Elem) : Handler unit :=
  match path with
  | [] => mret tt
  | currentTarget :: ancestors =>
      on currentTarget ;;
      stopped ← gets propagationStopped;
      if (stopped : bool) then mret tt else bubble on ancestors
  end.

(** The listeners registered on [document] each run their own
    [handleKeyDown], with the [onClose] of the render that created them. *)
Fixpoint runListeners (ls : list Listener) (e : KeyboardEvent) : Handler unit :=
  match ls with
  | [] => mret tt
  | l :: ls' => handleKeyDown (pageProps (listenerScope l)) e ;; runListeners ls' e
  end.

(** A [keydown] is dispatched at the focused element, or at the body when
    nothing is focused.  React (from version 17; [useId] needs 18) listens
    on the root container, inside [document]: the handlers of the JSX run
    first, and [stopPropagation] in one of them stops the native event
    before it reaches the listeners on [document]. *)
Definition dispatchKeyDown (props : ModalProps) (fresh : PromiseId)
    (env : Env) (e : KeyboardEvent) : Handler unit :=
  let target := default Body (activeElement env) in
  bubble (reactHandler props fresh keydown target) (pathToRoot target) ;;
  stopped ← gets propagationStopped;
  if (stopped : bool) then mret tt else runListeners (keydownListeners env) e.

Definition modifyEnv (f : Env -> Env) : Handler unit :=
  modify (fun b =>
    mkBatch (queuedHooks b) (queuedModalState b) (f (dom b)) (trace b)
      (propagationStopped b) (defaultPrevented b)).

(** [firstInputRef.current] *)
Definition firstInputRef (env : Env) : option Elem :=
  if dialogRendered env then Some NameInput else None.

(** The callback given to [setTimeout] at lines 110-112. *)
Definition focusFirstInput : Handler unit :=
  current ← gets (fun b => firstInputRef (dom b));
  focusOpt current.

Definition isPending (id : nat) (env : Env) : bool :=
  bool_decide (id ∈ map timerId (timers env)).

Definition removeTimer (id : nat) (env : Env) : Env :=
  mkEnv (activeElement env) (bodyOverflow env) (keydownListeners env)
    (filter (fun t => timerId t ≠ id) (timers env))
    (dialogRendered env) (panelFocusable env) (detached env) (reducedMotion env).

Definition detach (n : nat) (env : Env) : Env :=
  mkEnv
    (if bool_decide (activeElement env = Some (Foreign n)) then Some Body
     else activeElement env)
    (bodyOverflow env) (keydownListeners env) (timers env)
    (dialogRendered env) (panelFocusable env) (n :: detached env) (reducedMotion env).

(** The input, if any, that has focus in [before] and not in [after]. *)
Definition lostFocus (before after : Env) : option Field :=
  match activeElement before with
  | Some NameInput =>
      match activeElement after with
      | Some NameInput => None
      | _ => Some key_name
      end
  | Some EmailInput =>
      match activeElement after with
      | Some EmailInput => None
      | _ => Some key_email
      end
  | _ => None
  end.

(** Code that runs outside React (a listener on [document], a timer
    callback) and calls [focus()]: the element that had focus sees
    [focusout] inside the call, and when it is one of the inputs its
    [onBlur] (lines 210 and 239) runs [handleBlur] of the current
    render before the call returns. *)
Definition withFocusOut (snap : ModalHooks) (h : Handler unit) : Handler unit :=
  before ← gets dom;
  h ;;
  after ← gets dom;
  match lostFocus before after with
  | Some field => handleBlur snap field
  | None => mret tt
  end.

Definition dispatch (s : System) (ev : Event) : Handler unit :=
  let props := pageProps (modalState s) in
  let env := document s in
  match ev with
  | Click target =>
      if connected env target
      then bubble (reactHandler props (fresh s) click target) (pathToRoot target)
      else mret tt
  | KeyDown e => withFocusOut (hooks s) (dispatchKeyDown props (fresh s) env e)
  | Submit =>
      if dialogRendered env then handleSubmit props (hooks s) else mret tt
  | Change field value =>
      if dialogRendered env then handleInputChange (hooks s) field value else mret tt
  | Blur field =>
      if dialogRendered env then handleBlur (hooks s) field else mret tt
  | TimerFired id =>
      if isPending id env
      then withFocusOut (hooks s) (modifyEnv (removeTimer id) ;; focusFirstInput)
      else mret tt
  | FocusMoved node => modifyEnv (moveFocusEnv node)
  | Detach n => modifyEnv (detach n)
  end.

(** What a handler starts from: nothing queued, the hooks of the current
    render, the document as it is. *)
Definition startBatch (s : System) : Batch :=
  mkBatch (hooks s) None (document s) [] false false.

(** After the handlers of an event have returned, React applies the
    queued updates and renders: [Modal] alone when only its own hooks
    changed (the dependencies of its effect are then the same), [Page]
    and [Modal] when [setModalState] was called.  Every event uses up a
    number, so that the numbers of promises, listeners and timers are
    never reused. *)
Definition commit (b : Batch) (s : System) : System :=
  let s1 :=
    mkSystem (modalState s) (queuedHooks b) (lastFocusedElement s) (effectCleanup s)
      (dom b) (S (fresh s)) (history s ++ trace b) in
  match queuedModalState b with
  | Some next => renderPage next s1
  | None => s1
  end.

Definition step (s : System) (ev : Event) : System :=
  commit (exec (dispatch s ev) (startBatch s)) s.

Definition run (s : System) (evs : list Event) : System := fold_left step evs s.

(** The page as first rendered: closed, nothing typed, nothing focused
    but the body. *)
Definition initialEnv (prefersReducedMotion : bool) : Env :=
  mkEnv (Some Body) [] [] [] false [] [] prefersReducedMotion.

Definition initialSystem (prefersReducedMotion : bool) : System :=
  mkSystem (mkModalState false None) initialHooks None None
    (initialEnv prefersReducedMotion) 0%nat [].

(** The states the page can be in: those a sequence of events leads to
    from the first render. *)
Definition reachable (s : System) : Prop :=
  exists prefersReducedMotion evs, s = run (initialSystem prefersReducedMotion) evs.

(** ** Shapes of an e-mail address *)

(** A run of one or more code units that are neither white space nor [@]. *)
Definition segment (s : jsstring) : Prop :=
  s <> [] /\ Forall (fun c => notSpaceNorAt c = true) s.

(** The strings [emailRegex] accepts. *)
Definition emailShape (v : jsstring) : Prop :=
  exists l d t, v = l ++ 64 :: d ++ 46 :: t /\ segment l /\ segment d /\ segment t.

(** The shape as the description words it: runs of characters that are
    not white space around an [@] and a dot. *)
Definition nonSpaceRun (s : jsstring) : Prop :=
  s <> [] /\ Forall (fun c => isWhiteSpace c = false) s.

Definition describedShape (v : jsstring) : Prop :=
  exists l d t, v = l ++ 64 :: d ++ 46 :: t /\
    nonSpaceRun l /\ nonSpaceRun d /\ nonSpaceRun t.

(** 'a@b@c.d' *)
Definition twoAts : jsstring := [97; 64; 98; 64; 99; 46; 100].

(** ** Reading a trace *)

Definition isOnSubmit (a : Action) : bool :=
  match a with
  | OnSubmit _ => true
  | _ => false
  end.

Definition isOnClose (a : Action) : bool :=
  match a with
  | OnClose => true
  | _ => false
  end.

(** What calling the stored [resolve], if there is one, adds to a trace. *)
Definition resolveOf (modalState : ModalState) (result : ModalResult) : list Action :=
  match resolve modalState with
  | Some p => [Resolve p result]
  | None => []
  end.

(** The promises that a trace resolves, one entry per call of a
    [resolve]. *)
Fixpoint resolvedIds (h : list Action) : list PromiseId :=
  match h with
  | [] => []
  | Resolve p _ :: h' => p :: resolvedIds h'
  | _ :: h' => resolvedIds h'
  end.

(** ** Invariants of the page *)

(** A field that is not touched has no stored error message. *)
Definition quietHooks (h : ModalHooks) : Prop :=
  forall field, isTouched (touched h) field = false -> readError (errors h) field = None.

(** No promise has been resolved twice, and every resolved promise has
    been created. *)
Definition goodHistory (fresh : nat) (h : list Action) : Prop :=
  NoDup (resolvedIds h) /\ forall q, q ∈ resolvedIds h -> (q < fresh)%nat.

(** The two shapes of a state of the page.  Closed: no request is
    pending, the effect has no cleanup, and the document carries neither
    the listener, nor the timer, nor the scroll lock.  Open: the pending
    request is unresolved, and the document carries exactly the listener
    of the last run of the effect, created with the current [onClose],
    the scroll lock, and at most the timer of that run. *)
Inductive Inv : System -> Prop :=
| InvClosed h lf a det rm fr hist :
    quietHooks h -> goodHistory fr hist ->
    Inv (mkSystem (mkModalState false None) h lf None
           (mkEnv a [] [] [] false [] det rm) fr hist)
| InvOpen p h lf lid tid a tms det rm fr hist :
    quietHooks h -> goodHistory fr hist ->
    (p < fr)%nat -> (lid < fr)%nat -> (tid < fr)%nat ->
    p ∉ resolvedIds hist ->
    tms = [] \/ (exists delay, tms = [mkTimer tid delay]) ->
    Inv (mkSystem (mkModalState true (Some p)) h lf
           (Some (mkCleanup (mkListener lid (mkModalState true (Some p))) tid))
           (mkEnv a hidden [mkListener lid (mkModalState true (Some p))] tms
              true renderedFocusable det rm)
           fr hist).

(** ** Vocabulary of the statements *)

(** Input changes and blurs. *)
Definition isFormEvent (ev : Event) : bool :=
  match ev with
  | Change _ _ | Blur _ => true
  | _ => false
  end.

(** The events that close an open dialog: Escape reaching the listener
    on [document], a click on the backdrop, a click on Cancel, and a
    submit of a form without errors. *)
Definition closes (s : System) (ev : Event) : Prop :=
  match ev with
  | KeyDown e =>
      key e = Escape /\ containsNode Panel (activeElement (document s)) = false
  | Click target => target = Overlay \/ target = CancelButton
  | Submit => validateForm (formData (hooks s)) = ∅
  | _ => False
  end.

(** How many times a trace resolves promise [p]. *)
Definition fulfillments (p : PromiseId) (h : list Action) : nat :=
  length (filter (fun q => q = p) (resolvedIds h)).

(** What one event adds to the history, seen from the pending request:
    either no promise is resolved, or the pending one is, once, and the
    slot is emptied; a request that occupies the slot afterwards is the
    old one or a newly created one. *)
Definition StepFacts (s s' : System) : Prop :=
  (exists tr, history s' = history s ++ tr /\
     (resolvedIds tr = [] \/
      exists p, resolve (modalState s) = Some p /\ resolvedIds tr = [p] /\
                resolve (modalState s') = None)) /\
  (forall q, resolve (modalState s') = Some q ->
     resolve (modalState s) = Some q \/ (fresh s <= q)%nat) /\
  (fresh s <= fresh s')%nat.

(** A request that was overwritten: created, not in the slot, never
    resolved. *)
Definition Lost (p : PromiseId) (s : System) : Prop :=
  (p < fresh s)%nat /\ resolve (modalState s) ≠ Some p /\ p ∉ resolvedIds (history s).

(** ** Scenarios *)

(** The user focuses the "open" button and activates it: the modal is
    open, and focus is still on the button until the focus timer fires. *)
Definition justOpened : System :=
  run (initialSystem false) [FocusMoved OpenButton; Click OpenButton].

(** Then the focus timer fires: focus is on the name input, inside the
    panel. *)
Definition focusInDialog : System := step justOpened (TimerFired 3).

(** Then the user moves to the last focusable element of the panel. *)
Definition focusOnSubmit : System := step focusInDialog (FocusMoved SubmitButton).

(** After opening, the user types 'A' in the name field and leaves it. *)
Definition typedA : System := run justOpened [Change key_name [65]; Blur key_name].

Definition tab : KeyboardEvent := mkKey Tab false.
Definition shiftTab : KeyboardEvent := mkKey Tab true.
Definition escape : KeyboardEvent := mkKey Escape false.

(** Clicks and key presses. *)
Definition isPointerOrKey (ev : Event) : bool :=
  match ev with
  | Click _ | KeyDown _ => true
  | _ => false
  end.

(** ** What the dialog renders for a field ([src/Modal.tsx] 16-20, 204-224, 234-253) *)

(** The five identifiers obtained from [useId], pairwise distinct. *)
Inductive ElementId : Type :=
| modalTitleId | nameFieldId | emailFieldId | nameErrorId | emailErrorId.

Definition fieldId (field : Field) : ElementId :=
  match field with
  | key_name => nameFieldId
  | key_email => emailFieldId
  end.

Definition errorId (field : Field) : ElementId :=
  match field with
  | key_name => nameErrorId
  | key_email => emailErrorId
  end.

(** What is rendered for one field: the input with its [id], [value],
    [aria-invalid] and [aria-describedby], and the [role="alert"]
    paragraph with its [id] and text, when there is one. *)
Record FieldView : Type := mkFieldView {
  inputId : ElementId;
  inputValue : jsstring;
  ariaInvalid : bool;
  ariaDescribedBy : option ElementId;
  alert : option (ElementId * jsstring)
}.

Definition renderField (h : ModalHooks) (field : Field) : FieldView :=
  let error := readError (errors h) field in
  {| inputId := fieldId field;
     inputValue := getField (formData h) field;
     ariaInvalid := truthyOpt error;
     ariaDescribedBy := if truthyOpt error then Some (errorId field) else None;
     alert :=
       match error with
       | Some message => if truthy message then Some (errorId field, message) else None
       | None => None
       end |}.

(** ** More vocabulary *)

(** The message for a blank field. *)
Definition requiredMessage (field : Field) : jsstring :=
  match field with
  | key_name => Messages.nameRequired
  | key_email => Messages.emailRequired
  end.

(** The elements a click on which calls the close callback: the
    backdrop itself and the Cancel button. *)
Definition isCloseTarget (target : Elem) : bool :=
  match target with
  | Overlay | CancelButton => true
  | _ => false
  end.

(** The stored error of every field is that of its current value when
    the field is touched, and absent when it is not. *)
Definition syncedHooks (h : ModalHooks) : Prop :=
  forall field,
    readError (errors h) field =
      if isTouched (touched h) field
      then validateField field (getField (formData h) field)
      else None.

(** Whatever was handed to the submit callback or to a promise passed
    the validation. *)
Definition validatedHistory (h : list Action) : Prop :=
  forall a,
    a ∈ h ->
    match a with
    | OnSubmit data | Resolve _ (Some data) => validateForm data = ∅
    | _ => True
    end.

(** The focused node is in the document. *)
Definition focusConnected (env : Env) : Prop :=
  match activeElement env with
  | Some n => connected env n = true
  | None => False
  end.

(** The only state updates of a trace are those of the form values,
    errors and touched flags. *)
(** Whether timer [id], on firing, takes focus from the e-mail input:
    it is pending, and that input has focus. *)
Definition takesFocusFromEmail (id : nat) (env : Env) : bool :=
  match activeElement env with
  | Some EmailInput => isPending id env
  | _ => false
  end.

(** The hooks after [handleBlur(field)] has run in a render with hooks
    [h]. *)
Definition blurred (h : ModalHooks) (field : Field) : ModalHooks :=
  mkHooks (formData h)
    (<[field := validateField field (getField (formData h) field)]> (errors h))
    (<[field := true]> (touched h)).

Definition isFormUpdate (a : Action) : bool :=
  match a with
  | SetFormData _ | SetErrors _ | SetTouched _ => true
  | _ => false
  end.

(** 'a@b.c' *)
Definition shortestEmail : jsstring := [97; 64; 98; 46; 99].

(** The user opens the modal, enters 'Al' and 'a@b.c', and submits. *)
Definition submittedAl : System :=
  run justOpened
    [Change key_name [65; 108]; Change key_email shortestEmail; Submit].

(** The user opens the modal and enters 'Al' and 'a@b.c'. *)
Definition filledAl : System :=
  run justOpened [Change key_name [65; 108]; Change key_email shortestEmail].

(** * Properties *)

(** ** Strings *)

Section StringFacts.

Lemma truthy_false (s : jsstring) : truthy s = false <-> s = [].
Proof. destruct s; simpl; split; congruence. Qed.

Lemma truthy_true (s : jsstring) : truthy s = true <-> s <> [].
Proof. destruct s; simpl; split; congruence. Qed.

Lemma trimStart_prefix (s : jsstring) :
  exists ws, s = ws ++ trimStart s /\ Forall (fun c => isWhiteSpace c = true) ws.
Proof.
  induction s as [|c s [ws [Hs Hws]]]; simpl.
  - exists []. split; [reflexivity | constructor].
  - destruct (isWhiteSpace c) eqn:Hc.
    + exists (c :: ws). split; [simpl; congruence | constructor; assumption].
    + exists []. split; [reflexivity | constructor].
Qed.

Lemma trimStart_head (s : jsstring) (c : N) (rest : jsstring) :
  trimStart s = c :: rest -> isWhiteSpace c = false.
Proof.
  induction s as [|a s IH]; simpl; [discriminate|].
  destruct (isWhiteSpace a) eqn:Ha; [exact IH|].
  intros H. injection H as -> _. exact Ha.
Qed.

(** [trim] removes white space from both ends, all of it and nothing
    else. *)
Lemma trim_spec (v : jsstring) :
  exists l r,
    v = l ++ trim v ++ r /\
    Forall (fun c => isWhiteSpace c = true) l /\
    Forall (fun c => isWhiteSpace c = true) r /\
    (forall c rest, trim v = c :: rest -> isWhiteSpace c = false) /\
    (forall c init, trim v = init ++ [c] -> isWhiteSpace c = false).
Proof.
  unfold trim, trimEnd.
  destruct (trimStart_prefix v) as (l & Hv & Hl).
  destruct (trimStart_prefix (rev (trimStart v))) as (ws & Hrev & Hws).
  set (u := trimStart (rev (trimStart v))) in *.
  assert (Ht : trimStart v = rev u ++ rev ws).
  { rewrite <- (rev_involutive (trimStart v)), Hrev, rev_app_distr. reflexivity. }
  exists l, (rev ws). repeat split.
  - rewrite <- Ht. exact Hv.
  - exact Hl.
  - apply Forall_rev. exact Hws.
  - intros c rest Hc. rewrite Hc in Ht. apply (trimStart_head v c _ Ht).
  - intros c init Hc.
    assert (Hu : u = c :: rev init).
    { rewrite <- (rev_involutive u), Hc, rev_app_distr. reflexivity. }
    apply (trimStart_head (rev (trimStart v)) c _ Hu).
Qed.

End StringFacts.

(** ** The matcher decides the language of a pattern *)

Section RegExpFacts.

Lemma nullable_Matches (r : RegExp) : nullable r = true <-> Matches r [].
Proof.
  induction r as [| |p|r1 IH1 r2 IH2|r1 IH1 r2 IH2|r IH]; simpl.
  - split; [discriminate | inversion 1].
  - split; [constructor | reflexivity].
  - split; [discriminate | inversion 1].
  - rewrite andb_true_iff, IH1, IH2. split.
    + intros [H1 H2]. exact (MSeq _ _ [] [] H1 H2).
    + inversion 1 as [| |? ? s1 s2 H1 H2 Hr Hs| | | |]; subst.
      apply app_eq_nil in Hs as [-> ->]. split; assumption.
  - rewrite orb_true_iff, IH1, IH2. split.
    + intros [H|H]; [apply MAltL | apply MAltR]; assumption.
    + inversion 1; subst; [left | right]; assumption.
  - split; [constructor | reflexivity].
Qed.

(** A non-empty match of [r*] starts with a non-empty match of [r]. *)
Lemma Matches_Star_cons (r : RegExp) (c : N) (s : jsstring) :
  Matches (Star r) (c :: s) ->
  exists s1 s2, s = s1 ++ s2 /\ Matches r (c :: s1) /\ Matches (Star r) s2.
Proof.
  intros H.
  remember (Star r) as r' eqn:Er. remember (c :: s) as w eqn:Ew.
  revert s Ew.
  induction H as [| | | | | |r0 s1 s2 H1 _ H2 IH2]; intros w Ew; try discriminate.
  injection Er as ->.
  destruct s1 as [|a s1]; simpl in Ew.
  - apply IH2; [reflexivity | assumption].
  - injection Ew as -> <-. exists s1, s2. repeat split; assumption.
Qed.

Lemma derive_Matches (r : RegExp) (c : N) (s : jsstring) :
  Matches (derive c r) s <-> Matches r (c :: s).
Proof.
  revert s.
  induction r as [| |p|r1 IH1 r2 IH2|r1 IH1 r2 IH2|r IH]; intros s; simpl.
  - split; inversion 1.
  - split; inversion 1.
  - destruct (p c) eqn:Hp; split.
    + inversion 1; subst. constructor. assumption.
    + inversion 1; subst. constructor.
    + inversion 1.
    + inversion 1; subst. congruence.
  - assert (Hcat : Matches (Seq (derive c r1) r2) s ->
                   Matches (Seq r1 r2) (c :: s)).
    { inversion 1 as [| |? ? s1 s2 H1 H2| | | |]; subst.
      apply IH1 in H1. exact (MSeq _ _ (c :: s1) s2 H1 H2). }
    assert (Hinv : Matches (Seq r1 r2) (c :: s) ->
                   Matches (Seq (derive c r1) r2) s \/
                   (Matches r1 [] /\ Matches r2 (c :: s))).
    { inversion 1 as [| |? ? s1 s2 H1 H2 Hr Hs| | | |]; subst.
      destruct s1 as [|a s1]; simpl in Hs.
      - right. subst. split; assumption.
      - injection Hs as -> <-. left. constructor; [apply IH1|]; assumption. }
    destruct (nullable r1) eqn:Hn; split.
    + inversion 1; subst; [auto|].
      apply (MSeq _ _ [] (c :: s)); [apply nullable_Matches | apply IH2]; assumption.
    + intros H. destruct (Hinv H) as [H1|[_ H2]].
      * apply MAltL. assumption.
      * apply MAltR. apply IH2. assumption.
    + exact Hcat.
    + intros H. destruct (Hinv H) as [H1|[H1 _]]; [assumption|].
      apply nullable_Matches in H1. congruence.
  - split.
    + inversion 1; subst; [apply MAltL, IH1 | apply MAltR, IH2]; assumption.
    + inversion 1; subst; [apply MAltL, IH1 | apply MAltR, IH2]; assumption.
  - split.
    + inversion 1 as [| |? ? s1 s2 H1 H2| | | |]; subst.
      apply IH in H1. exact (MStarApp _ (c :: s1) s2 H1 H2).
    + intros H. apply Matches_Star_cons in H as (s1 & s2 & -> & H1 & H2).
      constructor; [apply IH|]; assumption.
Qed.

Lemma test_Matches (r : RegExp) (s : jsstring) : test r s = true <-> Matches r s.
Proof.
  revert r. induction s as [|c s IH]; intros r; simpl.
  - apply nullable_Matches.
  - rewrite IH. apply derive_Matches.
Qed.

Lemma Matches_Star_Class (p : N -> bool) (s : jsstring) :
  Matches (Star (Class p)) s <-> Forall (fun c => p c = true) s.
Proof.
  split.
  - induction s as [|c s IH]; intros H; [constructor|].
    apply Matches_Star_cons in H as (s1 & s2 & -> & H1 & H2).
    inversion H1; subst. constructor; [assumption | apply IH; assumption].
  - induction 1 as [|c s Hc _ IH]; [constructor|].
    apply (MStarApp _ [c] s); [constructor|]; assumption.
Qed.

Lemma Matches_Plus_Class (p : N -> bool) (s : jsstring) :
  Matches (Plus (Class p)) s <-> s <> [] /\ Forall (fun c => p c = true) s.
Proof.
  unfold Plus. split.
  - inversion 1 as [| |? ? s1 s2 H1 H2| | | |]; subst.
    inversion H1; subst. split; [discriminate|].
    constructor; [assumption | apply Matches_Star_Class; assumption].
  - intros [Hne Hall]. destruct Hall as [|c s Hc Hs]; [congruence|].
    apply (MSeq _ _ [c] s); [constructor | apply Matches_Star_Class]; assumption.
Qed.

Lemma Matches_Class_eqb (k : N) (s : jsstring) :
  Matches (Class (N.eqb k)) s <-> s = [k].
Proof.
  split.
  - inversion 1 as [|p c Hc| | | | |]; subst. apply N.eqb_eq in Hc. congruence.
  - intros ->. constructor. apply N.eqb_refl.
Qed.

End RegExpFacts.

(** ** Validation of one field *)

Lemma emailRegex_shape (v : jsstring) : Matches emailRegex v <-> emailShape v.
Proof.
  unfold emailRegex, emailShape, segment. split.
  - inversion 1 as [| |? ? l s2 Hl H2| | | |]; subst.
    inversion H2 as [| |? ? a s3 Ha H3| | | |]; subst.
    inversion H3 as [| |? ? d s4 Hd H4| | | |]; subst.
    inversion H4 as [| |? ? b t Hb Ht| | | |]; subst.
    apply Matches_Class_eqb in Ha, Hb. subst.
    apply Matches_Plus_Class in Hl, Hd, Ht.
    exists l, d, t. simpl. auto.
  - intros (l & d & t & -> & Hl & Hd & Ht).
    apply Matches_Plus_Class in Hl, Hd, Ht.
    apply MSeq; [assumption|].
    apply (MSeq _ _ [64]); [apply Matches_Class_eqb; reflexivity|].
    apply MSeq; [assumption|].
    apply (MSeq _ _ [46]); [apply Matches_Class_eqb; reflexivity | assumption].
Qed.

(** C2. For every string [v], [validateField('name', v)] returns an error
    message exactly when [trim(v)] is empty or has fewer than two code
    units, and returns [undefined] in every other case. *)
Theorem validateField_name_iff (v : jsstring) :
  (is_Some (validateField key_name v) <->
     trim v = [] \/ (length (trim v) < 2)%nat) /\
  (validateField key_name v = None <->
     trim v <> [] /\ (2 <= length (trim v))%nat).
Proof.
  unfold validateField.
  destruct (truthy (trim v)) eqn:Ht; simpl.
  - apply truthy_true in Ht.
    destruct (Nat.ltb_spec (length (trim v)) 2) as [Hlt|Hge].
    + split; split.
      * intros _. right. assumption.
      * intros _. eexists. reflexivity.
      * discriminate.
      * intros [_ H]. lia.
    + split; split.
      * intros [x Hx]. discriminate.
      * intros [H|H]; [congruence | lia].
      * intros _. split; assumption.
      * reflexivity.
  - apply truthy_false in Ht. split; split.
    + intros _. left. assumption.
    + intros _. eexists. reflexivity.
    + discriminate.
    + intros [H _]. congruence.
Qed.

Lemma validateField_email_cases (v : jsstring) :
  validateField key_email v =
    if decide (trim v = []) then Some Messages.emailRequired
    else if test emailRegex v then None
    else Some Messages.emailInvalid.
Proof.
  unfold validateField.
  destruct (truthy (trim v)) eqn:Ht; simpl.
  - apply truthy_true in Ht. destruct (decide (trim v = [])); [congruence|].
    destruct (test emailRegex v); reflexivity.
  - apply truthy_false in Ht. destruct (decide (trim v = [])); [reflexivity | congruence].
Qed.

(** C3, as amended. For every string [v], [validateField('email', v)]
    returns an error message exactly when [trim(v)] is empty or [v] is not
    of the shape: one or more code units that are neither white space nor
    [@], then [@], then one or more such code units, then a dot, then one
    or more such code units; it returns [undefined] in every other case. *)
Theorem validateField_email_iff (v : jsstring) :
  (is_Some (validateField key_email v) <-> trim v = [] \/ ~ emailShape v) /\
  (validateField key_email v = None <-> trim v <> [] /\ emailShape v).
Proof.
  rewrite validateField_email_cases.
  pose proof (test_Matches emailRegex v) as Ht.
  rewrite emailRegex_shape in Ht.
  destruct (decide (trim v = [])) as [He|He].
  - split; split.
    + intros _. left. assumption.
    + intros _. eexists. reflexivity.
    + discriminate.
    + intros [H _]. congruence.
  - destruct (test emailRegex v); split; split.
    + intros [x Hx]. discriminate.
    + intros [H|H]; [congruence|]. exfalso. apply H, Ht. reflexivity.
    + intros _. split; [assumption | apply Ht; reflexivity].
    + reflexivity.
    + intros _. right. intros H. apply Ht in H. discriminate.
    + intros _. eexists. reflexivity.
    + discriminate.
    + intros [_ H]. apply Ht in H. discriminate.
Qed.

(** C3, as stated, fails at 'a@b@c.d': the string is runs of non-space
    characters around an [@] and a dot (the middle run being 'b@c'), its
    trimmed form is not empty, and yet [validateField] returns the
    invalid-format message, because the pattern also excludes [@] from
    each run. *)
Lemma validateField_email_described_shape_fails :
  ~ (is_Some (validateField key_email twoAts) <->
       trim twoAts = [] \/ ~ describedShape twoAts).
Proof.
  intros [Hif _].
  assert (Herr : is_Some (validateField key_email twoAts)).
  { exists Messages.emailInvalid. reflexivity. }
  destruct (Hif Herr) as [He|Hn].
  - discriminate He.
  - apply Hn. exists [97], [98; 64; 99], [100].
    split; [reflexivity|].
    unfold nonSpaceRun.
    repeat split; try discriminate; repeat constructor.
Qed.

(** ** Validation of the whole form *)

Lemma validateField_truthy (field : Field) (v m : jsstring) :
  validateField field v = Some m -> truthy m = true.
Proof.
  unfold validateField. destruct field.
  - destruct (negb (truthy (trim v))); [intros [= <-]; reflexivity|].
    destruct (length (trim v) <? 2)%nat; [intros [= <-]; reflexivity | discriminate].
  - destruct (negb (truthy (trim v))); [intros [= <-]; reflexivity|].
    destruct (negb (test emailRegex v)); [intros [= <-]; reflexivity | discriminate].
Qed.

(** [validateForm] holds a key exactly for the fields in error, with the
    message of [validateField]. *)
Lemma validateForm_lookup (data : FormData) (field : Field) :
  validateForm data !! field =
    match validateField field (getField data field) with
    | Some m => Some (Some m)
    | None => None
    end.
Proof.
  unfold validateForm, keysFormData. cbn [fold_left getField].
  destruct (validateField key_name (name data)) as [m1|] eqn:E1;
    destruct (validateField key_email (email data)) as [m2|] eqn:E2;
    cbn [truthyOpt];
    try rewrite (validateField_truthy _ _ _ E1);
    try rewrite (validateField_truthy _ _ _ E2);
    destruct field; cbn [getField]; rewrite ?E1, ?E2;
    simplify_map_eq; reflexivity.
Qed.

Lemma readError_validateForm (data : FormData) (field : Field) :
  readError (validateForm data) field = validateField field (getField data field).
Proof.
  unfold readError. rewrite validateForm_lookup.
  destruct (validateField field (getField data field)); reflexivity.
Qed.

Lemma validateForm_empty (data : FormData) :
  validateForm data = ∅ <->
  forall field, validateField field (getField data field) = None.
Proof.
  split.
  - intros H field. rewrite <- readError_validateForm, H. reflexivity.
  - intros H. apply map_eq. intros field.
    rewrite validateForm_lookup, H, lookup_empty. reflexivity.
Qed.

Lemma keysLength_zero (formErrors : FormErrors) :
  keysLength formErrors = 0%nat <-> formErrors = ∅.
Proof. apply map_size_empty_iff. Qed.

(** ** The submit handler *)

#[local] Arguments validateField : simpl never.
#[local] Arguments validateForm : simpl never.
#[local] Arguments trim : simpl never.

Ltac unfold_handler :=
  unfold exec, callOnSubmit, callOnClose, handleFormSubmit, handleCloseModal,
    setFormData, setErrors, setTouched, setModalState, called, preventDefault,
    stopPropagation, focusOpt, focus, modifyEnv, modify, gets,
    mbind, Handler_bind, mret, Handler_ret.

Lemma handleSubmit_exec (props : ModalState) (snap : ModalHooks) (b : Batch) :
  exec (handleSubmit (pageProps props) snap) b =
    let data := formData snap in
    if decide (validateForm data = ∅) then
      mkBatch initialHooks (Some (mkModalState false None)) (dom b)
        (trace b ++
           [SetTouched allTouched; SetErrors ∅; OnSubmit data] ++
           resolveOf props (Some data) ++
           [SetModalState (mkModalState false None);
            SetFormData (mkFormData [] []); SetErrors ∅; SetTouched ∅])
        (propagationStopped b) true
    else
      mkBatch (mkHooks (formData (queuedHooks b)) (validateForm data) allTouched)
        (queuedModalState b) (dom b)
        (trace b ++ [SetTouched allTouched; SetErrors (validateForm data)])
        (propagationStopped b) true.
Proof.
  unfold handleSubmit, resolveOf, pageProps. cbn zeta.
  destruct (decide (keysLength (validateForm (formData snap)) = 0%nat)) as [Hk|Hk];
    destruct (decide (validateForm (formData snap) = ∅)) as [He|He];
    try (apply keysLength_zero in Hk; contradiction);
    try (exfalso; apply Hk, keysLength_zero, He).
  - rewrite He. unfold_handler. cbn.
    destruct (resolve props); cbn; unfold initialHooks;
      rewrite <- ?app_assoc; reflexivity.
  - unfold_handler. cbn. rewrite <- ?app_assoc. reflexivity.
Qed.

Lemma hooks_renderPage (next : ModalState) (s : System) :
  hooks (renderPage next s) = hooks s.
Proof.
  unfold renderPage, runEffect, runCleanup. cbn.
  destruct (effectCleanup s); cbn; destruct (isOpen next); reflexivity.
Qed.

Lemma hooks_commit (b : Batch) (s : System) : hooks (commit b s) = queuedHooks b.
Proof.
  unfold commit. destruct (queuedModalState b); [rewrite hooks_renderPage|]; reflexivity.
Qed.

(** C1. For every state of the page, the submit handler first queues
    "both fields touched" and the errors of the full validation.  If no
    field has an error, it then calls the submit callback once, with the
    current values, and afterwards queues the reset: the hooks React
    commits are the initial empty values, errors and touched flags.  If a
    field has an error, the submit callback is not called, and the hooks
    React commits are the unchanged values, the errors of the validation
    and both fields touched. *)
Theorem handleSubmit_spec (s : System) :
  let data := formData (hooks s) in
  let b := exec (handleSubmit (pageProps (modalState s)) (hooks s)) (startBatch s) in
  (exists rest,
     trace b = SetTouched allTouched :: SetErrors (validateForm data) :: rest) /\
  match validateField key_name (name data), validateField key_email (email data) with
  | None, None =>
      filter isOnSubmit (trace b) = [OnSubmit data] /\
      (exists after,
         trace b = [SetTouched allTouched; SetErrors (validateForm data);
                    OnSubmit data] ++ after /\
         SetFormData (mkFormData [] []) ∈ after /\
         SetErrors ∅ ∈ after /\ SetTouched ∅ ∈ after) /\
      hooks (commit b s) = initialHooks
  | _, _ =>
      filter isOnSubmit (trace b) = [] /\
      hooks (commit b s) = mkHooks data (validateForm data) allTouched
  end.
Proof.
  intros data b. subst b. rewrite hooks_commit, handleSubmit_exec. fold data.
  assert (Hcase : validateForm data = ∅ <->
                  validateField key_name (name data) = None /\
                  validateField key_email (email data) = None).
  { rewrite validateForm_empty. split.
    - intros H. split; [apply (H key_name) | apply (H key_email)].
    - intros [H1 H2] []; assumption. }
  cbn zeta. destruct (decide (validateForm data = ∅)) as [He|He].
  - destruct (proj1 Hcase He) as [-> ->]. rewrite He. cbn.
    split; [eexists; reflexivity|].
    split; [|split; [|reflexivity]].
    + unfold resolveOf. destruct (resolve (modalState s)); reflexivity.
    + eexists. split; [reflexivity|].
      unfold resolveOf. destruct (resolve (modalState s)); cbn;
        rewrite !elem_of_cons; tauto.
  - cbn. split; [eexists; reflexivity|].
    destruct (validateField key_name (name data)) eqn:E1;
      [|destruct (validateField key_email (email data)) eqn:E2];
      try (split; reflexivity).
    exfalso. apply He, Hcase. split; reflexivity.
Qed.

(** ** Invariants *)

Lemma resolvedIds_app (h1 h2 : list Action) :
  resolvedIds (h1 ++ h2) = resolvedIds h1 ++ resolvedIds h2.
Proof.
  induction h1 as [|a h1 IH]; [reflexivity|].
  destruct a; cbn; rewrite IH; reflexivity.
Qed.

Lemma goodHistory_quiet (fr fr' : nat) (hist tr : list Action) :
  goodHistory fr hist -> resolvedIds tr = [] -> (fr <= fr')%nat ->
  goodHistory fr' (hist ++ tr).
Proof.
  intros [Hnd Hlt] Htr Hle. unfold goodHistory.
  rewrite resolvedIds_app, Htr, app_nil_r.
  split; [assumption|]. intros q Hq. specialize (Hlt q Hq). lia.
Qed.

Lemma goodHistory_resolve (fr fr' : nat) (hist tr : list Action) (p : PromiseId) :
  goodHistory fr hist -> resolvedIds tr = [p] -> p ∉ resolvedIds hist ->
  (p < fr)%nat -> (fr <= fr')%nat ->
  goodHistory fr' (hist ++ tr).
Proof.
  intros [Hnd Hlt] Htr Hp Hpf Hle. unfold goodHistory.
  rewrite resolvedIds_app, Htr. split.
  - apply list.NoDup_app. split; [assumption|]. split.
    + intros q Hq Hq'. apply list_elem_of_singleton in Hq'. subst. contradiction.
    + apply list.NoDup_singleton.
  - intros q Hq. apply elem_of_app in Hq as [Hq|Hq].
    + specialize (Hlt q Hq). lia.
    + apply list_elem_of_singleton in Hq. subst. lia.
Qed.

Lemma quietHooks_initial : quietHooks initialHooks.
Proof. intros field _. reflexivity. Qed.

Lemma isTouched_insert (t : Touched) (f g : Field) :
  isTouched (<[f := true]> t) g = if decide (f = g) then true else isTouched t g.
Proof.
  unfold isTouched. rewrite lookup_insert. destruct (decide (f = g)); reflexivity.
Qed.

Lemma readError_insert (e : FormErrors) (f g : Field) (o : option jsstring) :
  readError (<[f := o]> e) g = if decide (f = g) then o else readError e g.
Proof.
  unfold readError. rewrite lookup_insert. destruct (decide (f = g)); reflexivity.
Qed.

Lemma isTouched_allTouched (f : Field) : isTouched allTouched f = true.
Proof. destruct f; reflexivity. Qed.

Lemma quietHooks_value (h : ModalHooks) (d : FormData) :
  quietHooks h -> quietHooks (mkHooks d (errors h) (touched h)).
Proof. intros Hq g Hg. apply Hq. assumption. Qed.

Lemma quietHooks_revalidate (h : ModalHooks) (d : FormData) (field : Field)
    (o : option jsstring) :
  quietHooks h -> isTouched (touched h) field = true ->
  quietHooks (mkHooks d (<[field := o]> (errors h)) (touched h)).
Proof.
  intros Hq Ht g Hg. cbn in *.
  rewrite readError_insert. destruct (decide (field = g)); [congruence|].
  apply Hq; assumption.
Qed.

Lemma quietHooks_blur (h : ModalHooks) (field : Field) (o : option jsstring) :
  quietHooks h ->
  quietHooks (mkHooks (formData h) (<[field := o]> (errors h))
                (<[field := true]> (touched h))).
Proof.
  intros Hq g Hg. cbn in *.
  rewrite isTouched_insert in Hg. rewrite readError_insert.
  destruct (decide (field = g)); [discriminate|]. apply Hq; assumption.
Qed.

Lemma quietHooks_allTouched (d : FormData) (e : FormErrors) :
  quietHooks (mkHooks d e allTouched).
Proof. intros g Hg. cbn in Hg. rewrite isTouched_allTouched in Hg. discriminate. Qed.

Lemma filter_listener_self (lid : nat) (scope : ModalState) :
  filter (fun l => listenerId l ≠ lid) [mkListener lid scope] = [].
Proof. cbn. destruct (decide (lid ≠ lid)); [congruence | reflexivity]. Qed.

Lemma filter_timer_self (tid : nat) (delay : N) :
  filter (fun t => timerId t ≠ tid) [mkTimer tid delay] = [].
Proof. cbn. destruct (decide (tid ≠ tid)); [congruence | reflexivity]. Qed.

Lemma filter_timer_pending (tid : nat) (tms : list Timer) :
  tms = [] \/ (exists delay, tms = [mkTimer tid delay]) ->
  filter (fun t => timerId t ≠ tid) tms = [].
Proof. intros [->|[delay ->]]; [reflexivity | apply filter_timer_self]. Qed.

Lemma isPending_none id a ov ls rend pf det rm :
  isPending id (mkEnv a ov ls [] rend pf det rm) = false.
Proof. unfold isPending. apply bool_decide_eq_false. cbn. apply not_elem_of_nil. Qed.

Lemma isPending_one id tid delay a ov ls rend pf det rm :
  isPending id (mkEnv a ov ls [mkTimer tid delay] rend pf det rm) = bool_decide (id = tid).
Proof.
  unfold isPending. cbn. apply bool_decide_ext. apply list_elem_of_singleton.
Qed.

(** Moving focus changes nothing but the focused element. *)
Lemma focusEnv_eta (node : Elem) (env : Env) :
  focusEnv node env =
    mkEnv (activeElement (focusEnv node env)) (bodyOverflow env)
      (keydownListeners env) (timers env) (dialogRendered env)
      (panelFocusable env) (detached env) (reducedMotion env).
Proof.
  unfold focusEnv. destruct (focusable node && connected env node), env; reflexivity.
Qed.

Ltac eval_core :=
  repeat (progress (
    unfold dispatchKeyDown, handleKeyDown, handleOverlayClick,
      handleOpenModal, openFormModal, handleInputChange, handleBlur,
      focusFirstInput, getFocusableElements, cleanupEnv, withFocusOut, lostFocus,
      moveFocusEnv;
    unfold_handler; cbn)).

Ltac eval_step := unfold step, dispatch; cbn; eval_core.

Lemma fresh_not_resolved (fr fr' : nat) (hist tr : list Action) :
  goodHistory fr hist -> resolvedIds tr = [] -> (fr <= fr')%nat ->
  fr' ∉ resolvedIds (hist ++ tr).
Proof.
  intros [_ Hlt] Htr Hle Hin. rewrite resolvedIds_app, Htr, app_nil_r in Hin.
  specialize (Hlt _ Hin). lia.
Qed.

Lemma pending_not_resolved (p : PromiseId) (hist tr : list Action) :
  p ∉ resolvedIds hist -> resolvedIds tr = [] -> p ∉ resolvedIds (hist ++ tr).
Proof. intros Hp Htr. rewrite resolvedIds_app, Htr, app_nil_r. assumption. Qed.

Ltac side_condition :=
  match goal with
  | |- quietHooks _ =>
      first [ assumption | apply quietHooks_initial | apply quietHooks_allTouched
            | apply quietHooks_blur; assumption
            | apply quietHooks_value; assumption
            | apply quietHooks_revalidate; assumption ]
  | |- goodHistory _ (_ ++ _) =>
      first [ eapply goodHistory_quiet; [eassumption | reflexivity | lia]
            | eapply goodHistory_resolve;
              [eassumption | reflexivity | assumption | lia | lia] ]
  | |- (_ < _)%nat => lia
  | |- _ ∉ resolvedIds (_ ++ _) =>
      first [ apply pending_not_resolved; [assumption | reflexivity]
            | eapply fresh_not_resolved; [eassumption | reflexivity | lia] ]
  | |- _ \/ _ =>
      first [ left; reflexivity | right; eexists; reflexivity | assumption ]
  end.

Ltac close_inv :=
  try rewrite focusEnv_eta;
  cbn [bodyOverflow keydownListeners timers dialogRendered panelFocusable
       detached reducedMotion];
  first [ apply InvClosed; side_condition | apply InvOpen; side_condition ].

Ltac split_case :=
  match goal with
  | |- context [bool_decide ?P] => destruct (bool_decide P) eqn:?
  | |- context [decide ?P] => destruct (decide P)
  | |- context [isTouched ?t ?f] => destruct (isTouched t f) eqn:?
  | |- context [match ?x with _ => _ end] => is_var x; destruct x
  end.

Ltac eval_focus := repeat (split_case; cbn; eval_core); try congruence.

Lemma Inv_step (s : System) (ev : Event) : Inv s -> Inv (step s ev).
Proof.
  intros H. destruct H as [h lf a det rm fr hist Hq Hh|p h lf lid tid a tms det rm fr hist Hq Hh Hp Hl Ht Hr Htm].
  - destruct ev as [target|[k sh]|  |field value|field|id|node|n].
    + destruct target; eval_step; eval_focus; close_inv.
    + destruct a as [[]|], k, sh; eval_step; close_inv.
    + eval_step; close_inv.
    + eval_step; close_inv.
    + eval_step; close_inv.
    + unfold step, dispatch. cbn [document]. rewrite isPending_none. eval_step; close_inv.
    + destruct node; eval_step; eval_focus; close_inv.
    + eval_step; close_inv.
  - destruct Htm as [->|[delay ->]];
      destruct ev as [target|[k sh]|  |field value|field|id|node|n].
    + destruct target; eval_step; eval_focus; close_inv.
    + destruct a as [[]|], k, sh; eval_step; eval_focus; close_inv.
    + unfold step, dispatch. cbn [document dialogRendered modalState hooks].
      rewrite handleSubmit_exec. cbn zeta.
      destruct (decide (validateForm (formData h) = ∅)); eval_step; eval_focus; close_inv.
    + eval_step; eval_focus; close_inv.
    + eval_step; eval_focus; close_inv.
    + unfold step, dispatch. cbn [document]. rewrite isPending_none. eval_step; close_inv.
    + destruct node; eval_step; eval_focus; close_inv.
    + eval_step; eval_focus; close_inv.
    + destruct target; eval_step; eval_focus; close_inv.
    + destruct a as [[]|], k, sh; eval_step; eval_focus; close_inv.
    + unfold step, dispatch. cbn [document dialogRendered modalState hooks].
      rewrite handleSubmit_exec. cbn zeta.
      destruct (decide (validateForm (formData h) = ∅)); eval_step; eval_focus; close_inv.
    + eval_step; eval_focus; close_inv.
    + eval_step; eval_focus; close_inv.
    + unfold step, dispatch. cbn [document]. rewrite isPending_one.
      destruct (bool_decide (id = tid)) eqn:Hid; eval_step; eval_focus; close_inv.
    + destruct node; eval_step; eval_focus; close_inv.
    + eval_step; eval_focus; close_inv.
Qed.

#[local] Arguments StepFacts : simpl never.

Ltac close_facts :=
  unfold StepFacts;
  try rewrite focusEnv_eta;
  cbn [history modalState fresh resolve];
  split;
  [ eexists; split;
    [ reflexivity
    | first [ left; reflexivity
            | right; eexists; repeat split; reflexivity ] ]
  | split;
    [ intros q Hslot;
      first [ left; exact Hslot | right; injection Hslot as <-; lia | discriminate Hslot ]
    | lia ] ].

Lemma StepFacts_step (s : System) (ev : Event) : Inv s -> StepFacts s (step s ev).
Proof.
  intros H. destruct H as [h lf a det rm fr hist Hq Hh|p h lf lid tid a tms det rm fr hist Hq Hh Hp Hl Ht Hr Htm].
  - destruct ev as [target|[k sh]|  |field value|field|id|node|n].
    + destruct target; eval_step; eval_focus; close_facts.
    + destruct a as [[]|], k, sh; eval_step; close_facts.
    + eval_step; close_facts.
    + eval_step; close_facts.
    + eval_step; close_facts.
    + unfold step, dispatch. cbn [document]. rewrite isPending_none. eval_step; close_facts.
    + destruct node; eval_step; eval_focus; close_facts.
    + eval_step; close_facts.
  - destruct Htm as [->|[delay ->]];
      destruct ev as [target|[k sh]|  |field value|field|id|node|n].
    + destruct target; eval_step; eval_focus; close_facts.
    + destruct a as [[]|], k, sh; eval_step; eval_focus; close_facts.
    + unfold step, dispatch. cbn [document dialogRendered modalState hooks].
      rewrite handleSubmit_exec. cbn zeta.
      destruct (decide (validateForm (formData h) = ∅)); eval_step; eval_focus; close_facts.
    + eval_step; eval_focus; close_facts.
    + eval_step; eval_focus; close_facts.
    + unfold step, dispatch. cbn [document]. rewrite isPending_none. eval_step; close_facts.
    + destruct node; eval_step; eval_focus; close_facts.
    + eval_step; eval_focus; close_facts.
    + destruct target; eval_step; eval_focus; close_facts.
    + destruct a as [[]|], k, sh; eval_step; eval_focus; close_facts.
    + unfold step, dispatch. cbn [document dialogRendered modalState hooks].
      rewrite handleSubmit_exec. cbn zeta.
      destruct (decide (validateForm (formData h) = ∅)); eval_step; eval_focus; close_facts.
    + eval_step; eval_focus; close_facts.
    + eval_step; eval_focus; close_facts.
    + unfold step, dispatch. cbn [document]. rewrite isPending_one.
      destruct (bool_decide (id = tid)) eqn:Hid; eval_step; eval_focus; close_facts.
    + destruct node; eval_step; eval_focus; close_facts.
    + eval_step; eval_focus; close_facts.
Qed.

(** ** Reachable states *)

Lemma Inv_initial (prefersReducedMotion : bool) : Inv (initialSystem prefersReducedMotion).
Proof.
  apply InvClosed; [apply quietHooks_initial|].
  split; [constructor | intros q Hq; inversion Hq].
Qed.

Lemma run_snoc (s : System) (evs : list Event) (ev : Event) :
  run s (evs ++ [ev]) = step (run s evs) ev.
Proof. unfold run. rewrite fold_left_app. reflexivity. Qed.

Lemma run_app (s : System) (evs1 evs2 : list Event) :
  run s (evs1 ++ evs2) = run (run s evs1) evs2.
Proof. unfold run. apply fold_left_app. Qed.

Lemma Inv_run (s : System) (evs : list Event) : Inv s -> Inv (run s evs).
Proof.
  revert s. induction evs as [|ev evs IH]; intros s H; [assumption|].
  apply IH, Inv_step, H.
Qed.

Lemma reachable_Inv (s : System) : reachable s -> Inv s.
Proof. intros (m & evs & ->). apply Inv_run, Inv_initial. Qed.

Lemma reachable_run (s : System) (evs : list Event) :
  reachable s -> reachable (run s evs).
Proof.
  intros (m & evs0 & ->). exists m, (evs0 ++ evs). symmetry. apply run_app.
Qed.

Lemma reachable_step (s : System) (ev : Event) : reachable s -> reachable (step s ev).
Proof. intros H. apply (reachable_run s [ev] H). Qed.

(** ** The pending request *)

Lemma filter_absent (p : PromiseId) (l : list PromiseId) :
  p ∉ l -> filter (fun q => q = p) l = [].
Proof.
  induction l as [|x l IH]; intros Hp; [reflexivity|].
  apply not_elem_of_cons in Hp as [Hne Hp].
  rewrite filter_cons_False by congruence. apply IH, Hp.
Qed.

Lemma fulfillments_NoDup (p : PromiseId) (h : list Action) :
  NoDup (resolvedIds h) -> (fulfillments p h <= 1)%nat.
Proof.
  unfold fulfillments. induction 1 as [|q l Hq _ IH]; [cbn; lia|].
  destruct (decide (q = p)) as [E|Hne].
  - rewrite filter_cons_True by exact E. subst q.
    rewrite (filter_absent p l Hq). cbn. lia.
  - rewrite filter_cons_False by exact Hne. exact IH.
Qed.

Lemma fulfillments_zero (p : PromiseId) (h : list Action) :
  fulfillments p h = 0%nat <-> p ∉ resolvedIds h.
Proof.
  unfold fulfillments. split.
  - intros Hlen Hin.
    assert (Hf : p ∈ filter (fun q => q = p) (resolvedIds h)).
    { apply list_elem_of_filter. split; [reflexivity | assumption]. }
    destruct (filter (fun q => q = p) (resolvedIds h)); [inversion Hf | discriminate].
  - intros Hp. rewrite (filter_absent p _ Hp). reflexivity.
Qed.

Lemma Lost_step (p : PromiseId) (s : System) (ev : Event) :
  Inv s -> Lost p s -> Lost p (step s ev).
Proof.
  intros HI (Hlt & Hslot & Hres).
  destruct (StepFacts_step s ev HI) as ((tr & Hh & Htr) & Hnew & Hfr).
  unfold Lost. split; [lia|]. split.
  - intros Hq. destruct (Hnew p Hq) as [H|H]; [contradiction | lia].
  - rewrite Hh, resolvedIds_app, not_elem_of_app. split; [assumption|].
    destruct Htr as [->|(q & Hq & -> & _)]; [apply not_elem_of_nil|].
    rewrite list_elem_of_singleton. intros ->. contradiction.
Qed.

Lemma Lost_run (p : PromiseId) (s : System) (evs : list Event) :
  Inv s -> Lost p s -> Lost p (run s evs).
Proof.
  revert s. induction evs as [|ev evs IH]; intros s HI HL; [assumption|].
  apply IH; [apply Inv_step | apply Lost_step]; assumption.
Qed.

Lemma pending_unresolved (s : System) (p : PromiseId) :
  Inv s -> resolve (modalState s) = Some p ->
  (p < fresh s)%nat /\ p ∉ resolvedIds (history s).
Proof.
  intros HI Hp. destruct HI; cbn in *; [discriminate|].
  injection Hp as <-. split; assumption.
Qed.

Lemma open_again (s : System) (p1 : PromiseId) :
  Inv s -> resolve (modalState s) = Some p1 ->
  resolve (modalState (step s (Click OpenButton))) = Some (fresh s) /\
  history (step s (Click OpenButton)) =
    history s ++ [SetModalState (mkModalState true (Some (fresh s)))].
Proof.
  intros HI Hp.
  destruct HI as [h lf a det rm fr hist Hq Hh|p h lf lid tid a tms det rm fr hist Hq Hh Hp' Hl Ht Hr Htm];
    cbn in Hp; [discriminate|].
  eval_step. split; reflexivity.
Qed.



(** ** Input changes and blurs *)

Lemma hooks_step_Change (s : System) (field : Field) (value : jsstring) :
  dialogRendered (document s) = true ->
  hooks (step s (Change field value)) =
    mkHooks (setField (formData (hooks s)) field value)
      (if isTouched (touched (hooks s)) field
       then <[field := validateField field value]> (errors (hooks s))
       else errors (hooks s))
      (touched (hooks s)).
Proof.
  intros Hd. unfold step. rewrite hooks_commit. unfold dispatch. rewrite Hd.
  unfold handleInputChange, startBatch. unfold_handler. cbn.
  destruct (isTouched (touched (hooks s)) field); reflexivity.
Qed.

Lemma hooks_step_Blur (s : System) (field : Field) :
  dialogRendered (document s) = true ->
  hooks (step s (Blur field)) =
    mkHooks (formData (hooks s))
      (<[field := validateField field (getField (formData (hooks s)) field)]>
         (errors (hooks s)))
      (<[field := true]> (touched (hooks s))).
Proof.
  intros Hd. unfold step. rewrite hooks_commit. unfold dispatch. rewrite Hd.
  unfold handleBlur, startBatch. unfold_handler. reflexivity.
Qed.

Lemma getField_setField (d : FormData) (field : Field) (value : jsstring) :
  getField (setField d field value) field = value.
Proof. destruct field; reflexivity. Qed.

(** A form event leaves the page state and the document as they are. *)
Lemma form_event_frame (s : System) (ev : Event) :
  isFormEvent ev = true ->
  modalState (step s ev) = modalState s /\ document (step s ev) = document s.
Proof.
  destruct ev; try discriminate; intros _; unfold step, dispatch;
    destruct (dialogRendered (document s));
    unfold handleInputChange, handleBlur, startBatch; unfold_handler; cbn;
    try destruct (isTouched (touched (hooks s)) field); cbn; split; reflexivity.
Qed.

Lemma form_events_frame (s : System) (evs : list Event) :
  forallb isFormEvent evs = true ->
  modalState (run s evs) = modalState s /\ document (run s evs) = document s.
Proof.
  revert s. induction evs as [|ev evs IH]; intros s Hall; [split; reflexivity|].
  cbn in Hall. apply andb_true_iff in Hall as [Hev Hall].
  destruct (form_event_frame s ev Hev) as [Hm Hd].
  destruct (IH (step s ev) Hall) as [Hm' Hd'].
  change (run s (ev :: evs)) with (run (step s ev) evs).
  rewrite Hm', Hd'. split; assumption.
Qed.

Lemma form_event_touched (s : System) (ev : Event) (field : Field) :
  isFormEvent ev = true ->
  isTouched (touched (hooks s)) field = true ->
  isTouched (touched (hooks (step s ev))) field = true.
Proof.
  intros Hev Ht. destruct (dialogRendered (document s)) eqn:Hd.
  - destruct ev; try discriminate.
    + rewrite hooks_step_Change by assumption. exact Ht.
    + rewrite hooks_step_Blur by assumption. cbn.
      rewrite isTouched_insert. destruct (decide (field0 = field)); [reflexivity | exact Ht].
  - destruct ev; try discriminate; unfold step; rewrite hooks_commit;
      unfold dispatch; rewrite Hd; exact Ht.
Qed.

Lemma form_events_touched (s : System) (evs : list Event) (field : Field) :
  forallb isFormEvent evs = true ->
  isTouched (touched (hooks s)) field = true ->
  isTouched (touched (hooks (run s evs))) field = true.
Proof.
  revert s. induction evs as [|ev evs IH]; intros s Hall Ht; [assumption|].
  cbn in Hall. apply andb_true_iff in Hall as [Hev Hall].
  apply (IH (step s ev) Hall). apply form_event_touched; assumption.
Qed.

Lemma Inv_open_rendered (s : System) :
  Inv s -> isOpen (modalState s) = true -> dialogRendered (document s) = true.
Proof. intros [] Hopen; [discriminate | reflexivity]. Qed.

Lemma Inv_quiet (s : System) : Inv s -> quietHooks (hooks s).
Proof. intros []; assumption. Qed.

(** C4. Take any state the page can reach in which the modal is open,
    then any sequence of input changes and blurs.  In the state [s] so
    reached, for every field: an input change stores the new value; if
    the field is untouched, the change leaves the stored errors as they
    were, and there is no stored message for the field; if the field is
    touched, the change stores [validateField] of the new value; a blur
    marks the field touched and stores [validateField] of its current
    value, whatever its touched flag was; and a field that was touched
    before the sequence is still touched after it.  That is all the two
    handlers do: a change leaves every touched flag as it was, a blur
    leaves the values as they were, and neither changes the value, the
    stored error or the touched flag of the other field. *)
Theorem touched_gates_validation (s0 : System) (evs : list Event)
    (field : Field) (value : jsstring) :
  reachable s0 ->
  isOpen (modalState s0) = true ->
  forallb isFormEvent evs = true ->
  let s := run s0 evs in
  let afterChange := hooks (step s (Change field value)) in
  let afterBlur := hooks (step s (Blur field)) in
  getField (formData afterChange) field = value /\
  (isTouched (touched (hooks s)) field = false ->
     errors afterChange = errors (hooks s) /\
     readError (errors afterChange) field = None) /\
  (isTouched (touched (hooks s)) field = true ->
     readError (errors afterChange) field = validateField field value) /\
  isTouched (touched afterBlur) field = true /\
  readError (errors afterBlur) field =
    validateField field (getField (formData (hooks s)) field) /\
  (isTouched (touched (hooks s0)) field = true ->
     isTouched (touched (hooks s)) field = true) /\
  touched afterChange = touched (hooks s) /\
  formData afterBlur = formData (hooks s) /\
  (forall other, other <> field ->
     getField (formData afterChange) other = getField (formData (hooks s)) other /\
     readError (errors afterChange) other = readError (errors (hooks s)) other /\
     isTouched (touched afterBlur) other = isTouched (touched (hooks s)) other /\
     readError (errors afterBlur) other = readError (errors (hooks s)) other).
Proof.
  intros Hr Hopen Hall s afterChange afterBlur.
  assert (HI : Inv s) by (apply reachable_Inv, reachable_run, Hr).
  assert (Hd : dialogRendered (document s) = true).
  { apply Inv_open_rendered; [exact HI|].
    subst s. rewrite (proj1 (form_events_frame s0 evs Hall)). exact Hopen. }
  subst afterChange afterBlur.
  rewrite hooks_step_Change, hooks_step_Blur by exact Hd. cbn.
  split; [apply getField_setField|].
  split; [|split; [|split; [|split; [|split; [|split; [|split]]]]]].
  - intros Ht. rewrite Ht. split; [reflexivity|]. apply (Inv_quiet s HI), Ht.
  - intros Ht. rewrite Ht, readError_insert.
    destruct (decide (field = field)); [reflexivity | congruence].
  - rewrite isTouched_insert. destruct (decide (field = field)); [reflexivity | congruence].
  - rewrite readError_insert. destruct (decide (field = field)); [reflexivity | congruence].
  - apply form_events_touched. exact Hall.
  - reflexivity.
  - reflexivity.
  - intros other Hne. repeat split.
    + destruct field, other, (formData (hooks s)); try congruence; reflexivity.
    + destruct (isTouched (touched (hooks s)) field); [|reflexivity].
      rewrite readError_insert. destruct (decide (field = other)); [congruence | reflexivity].
    + rewrite isTouched_insert. destruct (decide (field = other)); [congruence | reflexivity].
    + rewrite readError_insert. destruct (decide (field = other)); [congruence | reflexivity].
Qed.

Lemma touched_gates_validation_witness :
  let s := run justOpened [Change key_name [65]; Blur key_name] in
  readError (errors (hooks (step s (Change key_name [65; 66])))) key_name =
    validateField key_name [65; 66] /\
  touched (hooks (step s (Change key_name [65; 66]))) = touched (hooks s).
Proof.
  assert (Hr : reachable justOpened).
  { exists false, [FocusMoved OpenButton; Click OpenButton]. reflexivity. }
  pose proof (touched_gates_validation justOpened
                [Change key_name [65]; Blur key_name] key_name [65; 66] Hr
                eq_refl eq_refl) as H.
  cbv zeta in H. destruct H as (_ & _ & Hv & _ & _ & _ & Ht & _).
  split; [apply Hv; reflexivity | exact Ht].
Defined.

(** ** A submit that fails validation *)



(** ** Teardown *)

Ltac close_teardown :=
  repeat split;
  try reflexivity;
  try apply not_elem_of_nil;
  unfold focusEnv, focusable, connected; cbn;
  repeat (split_case; cbn);
  try reflexivity; try congruence; try apply not_elem_of_nil.

(** One proof per shape of the state and per event: [close] finishes
    each case after the step has been evaluated. *)
Ltac step_cases HI ev close :=
  destruct HI as [h lf a det rm fr hist Hq Hh
                 |p h lf lid tid a tms det rm fr hist Hq Hh Hp Hl Ht Hr Htm];
  [ destruct ev as [target|[k sh]| |field value|field|id|node|n];
    [ destruct target; eval_step; eval_focus; close
    | destruct a as [[]|], k, sh; eval_step; close
    | eval_step; close
    | eval_step; close
    | eval_step; close
    | unfold step, dispatch; cbn [document]; rewrite isPending_none; eval_step; close
    | destruct node; eval_step; eval_focus; close
    | eval_step; close ]
  | destruct ev as [target|[k sh]| |field value|field|id|node|n];
    destruct Htm as [->|[delay ->]];
    [ destruct target; eval_step; eval_focus; close
    | destruct target; eval_step; eval_focus; close
    | destruct a as [[]|], k, sh; eval_step; eval_focus; close
    | destruct a as [[]|], k, sh; eval_step; eval_focus; close
    | unfold step, dispatch; cbn [document dialogRendered modalState hooks];
      rewrite handleSubmit_exec; cbn zeta; eval_step; eval_focus; close
    | unfold step, dispatch; cbn [document dialogRendered modalState hooks];
      rewrite handleSubmit_exec; cbn zeta; eval_step; eval_focus; close
    | eval_step; eval_focus; close
    | eval_step; eval_focus; close
    | eval_step; eval_focus; close
    | eval_step; eval_focus; close
    | unfold step, dispatch; cbn [document]; rewrite isPending_none;
      eval_step; eval_focus; close
    | unfold step, dispatch; cbn [document]; rewrite isPending_one;
      eval_step; eval_focus; close
    | destruct node; eval_step; eval_focus; close
    | destruct node; eval_step; eval_focus; close
    | eval_step; eval_focus; close
    | eval_step; eval_focus; close ] ].

Ltac close_cause :=
  cbn; intros Ho Hc; try discriminate Ho; try discriminate Hc;
  first [ left; reflexivity | right; reflexivity
        | split; reflexivity | assumption ].

(** The modal goes from open to closed on the closing events only:
    Escape heard by the listener, a click on the backdrop or on Cancel,
    a submit without errors. *)
Lemma open_to_closed_only_by_closing_event (s : System) (ev : Event) :
  Inv s ->
  isOpen (modalState s) = true ->
  isOpen (modalState (step s ev)) = false ->
  closes s ev.
Proof. intros HI. step_cases HI ev close_cause. Qed.

Lemma Inv_mounted_open (s : System) (c : Cleanup) :
  Inv s -> effectCleanup s = Some c -> isOpen (modalState s) = true.
Proof. intros [] Hc; [discriminate Hc | reflexivity]. Qed.

(** C8. In every state the page can reach in which the effect is
    mounted, the events after which the modal is closed are the closing
    events (Escape heard by the listener, a click on the backdrop, a
    click on Cancel, a submit without errors), and each of them leaves
    the document exactly as the cleanup of the effect makes it from the
    document without the dialog: the listener of the effect is no longer
    registered (no listener is), the scroll lock is released, the focus
    timer is no longer pending (no timer is), and nothing else of the
    document is changed.  Focus is on the element captured when the
    effect ran if that element can take focus and is still in the
    document; otherwise, and so whenever the body was captured because
    nothing had focus, [focus()] does nothing and focus is where the
    removal of the dialog left it. *)
Theorem teardown_on_every_close (s : System) (ev : Event) (c : Cleanup) :
  reachable s -> effectCleanup s = Some c ->
  let s' := step s ev in
  let unmounted := commitDom false (document s) in
  (isOpen (modalState s') = false <-> closes s ev) /\
  (closes s ev ->
   effectCleanup s' = None /\
   document s' = cleanupEnv c (lastFocusedElement s) unmounted /\
   (registered c ∉ keydownListeners (document s')) /\
   keydownListeners (document s') = [] /\
   bodyOverflow (document s') = [] /\
   (focusTimeout c ∉ map timerId (timers (document s'))) /\
   timers (document s') = [] /\
   activeElement (document s') =
     match lastFocusedElement s with
     | Some node =>
         if focusable node && connected unmounted node
         then Some node else activeElement unmounted
     | None => activeElement unmounted
     end /\
   dialogRendered (document s') = false /\
   detached (document s') = detached (document s) /\
   reducedMotion (document s') = reducedMotion (document s)).
Proof.
  intros Hr Hc s' unmounted. subst s' unmounted.
  pose proof (reachable_Inv s Hr) as HI.
  assert (Hclose : closes s ev ->
    isOpen (modalState (step s ev)) = false /\
    effectCleanup (step s ev) = None /\
    document (step s ev) =
      cleanupEnv c (lastFocusedElement s) (commitDom false (document s)) /\
    (registered c ∉ keydownListeners (document (step s ev))) /\
    keydownListeners (document (step s ev)) = [] /\
    bodyOverflow (document (step s ev)) = [] /\
    (focusTimeout c ∉ map timerId (timers (document (step s ev)))) /\
    timers (document (step s ev)) = [] /\
    activeElement (document (step s ev)) =
      match lastFocusedElement s with
      | Some node =>
          if focusable node && connected (commitDom false (document s)) node
          then Some node else activeElement (commitDom false (document s))
      | None => activeElement (commitDom false (document s))
      end /\
    dialogRendered (document (step s ev)) = false /\
    detached (document (step s ev)) = detached (document s) /\
    reducedMotion (document (step s ev)) = reducedMotion (document s)).
  { intros Hev. pose proof HI as HI'.
    destruct HI' as [h lf a det rm fr hist Hq Hh|p h lf lid tid a tms det rm fr hist Hq Hh Hp Hl Ht Hr' Htm];
      cbn in Hc; [discriminate|].
    injection Hc as <-.
    destruct Htm as [->|[delay ->]];
      destruct ev as [target|[k sh]|  |field value|field|id|node|n];
      cbn in Hev; try contradiction.
    - destruct Hev as [->| ->]; eval_step; eval_focus; close_teardown.
    - destruct Hev as [-> Ha].
      destruct a as [[]|]; try discriminate Ha; eval_step; eval_focus; close_teardown.
    - unfold step, dispatch. cbn [document dialogRendered modalState hooks].
      rewrite handleSubmit_exec. cbn zeta.
      destruct (decide (validateForm (formData h) = ∅)); [|contradiction].
      eval_step; eval_focus; close_teardown.
    - destruct Hev as [->| ->]; eval_step; eval_focus; close_teardown.
    - destruct Hev as [-> Ha].
      destruct a as [[]|]; try discriminate Ha; eval_step; eval_focus; close_teardown.
    - unfold step, dispatch. cbn [document dialogRendered modalState hooks].
      rewrite handleSubmit_exec. cbn zeta.
      destruct (decide (validateForm (formData h) = ∅)); [|contradiction].
      eval_step; eval_focus; close_teardown. }
  split.
  - split.
    + apply open_to_closed_only_by_closing_event;
        [exact HI | exact (Inv_mounted_open s c HI Hc)].
    + intros Hev. apply (Hclose Hev).
  - intros Hev. apply (Hclose Hev).
Qed.

Lemma reachable_justOpened : reachable justOpened.
Proof. exists false, [FocusMoved OpenButton; Click OpenButton]. reflexivity. Qed.

Lemma teardown_on_every_close_witness :
  closes justOpened (Click Overlay) /\
  document (step justOpened (Click Overlay)) =
    mkEnv (Some OpenButton) [] [] [] false [] [] false.
Proof.
  assert (Hc : closes justOpened (Click Overlay)) by (left; reflexivity).
  split; [exact Hc|].
  pose proof (teardown_on_every_close justOpened (Click Overlay)
                (mkCleanup (mkListener 2 (mkModalState true (Some 1%nat))) 3)
                reachable_justOpened eq_refl) as H.
  cbv zeta in H. destruct H as [_ H]. destruct (H Hc) as (_ & -> & _). reflexivity.
Defined.

(** C8 as worded, at an explicit input.  The modal is opened while
    nothing has focus, so that the effect captures the body; the user
    then reaches the open button with the keyboard and presses Escape.
    The modal closes and the body is still in the document, but focus
    has not returned to it: [focus()] on the body does nothing, and
    focus stays on the open button. *)
Lemma teardown_leaves_focus_when_body_captured :
  let s := run (initialSystem false) [Click OpenButton; FocusMoved OpenButton] in
  let s' := step s (KeyDown escape) in
  isOpen (modalState s) = true /\
  closes s (KeyDown escape) /\
  isOpen (modalState s') = false /\
  lastFocusedElement s = Some Body /\
  connected (document s') Body = true /\
  activeElement (document s') = Some OpenButton /\
  activeElement (document s') <> lastFocusedElement s.
Proof. vm_compute. repeat split; discriminate. Qed.

(** ** The key listener *)

(** With no focusable element in the panel, Tab and Shift+Tab do nothing. *)
Lemma handleKeyDown_no_focusable (props : ModalProps) (shift : bool) (b : Batch) :
  panelFocusable (dom b) = [] ->
  exec (handleKeyDown props (mkKey Tab shift)) b = b.
Proof.
  intros Hf. unfold handleKeyDown, getFocusableElements, modalRef. unfold_handler. cbn.
  destruct (dialogRendered (dom b)); [|reflexivity].
  rewrite Hf. reflexivity.
Qed.

(** When the listener runs on Tab with focus on the last focusable
    element, or outside the panel, it cancels the default action and
    focuses the first one. *)
Lemma handleKeyDown_Tab_wraps (props : ModalProps) (b : Batch) (first lst : Elem) :
  dialogRendered (dom b) = true ->
  list.head (panelFocusable (dom b)) = Some first ->
  list.last (panelFocusable (dom b)) = Some lst ->
  activeElement (dom b) = Some lst \/
    containsNode Panel (activeElement (dom b)) = false ->
  exec (handleKeyDown props (mkKey Tab false)) b =
    mkBatch (queuedHooks b) (queuedModalState b) (focusEnv first (dom b)) (trace b)
      (propagationStopped b) true.
Proof.
  intros Hd Hfirst Hlast Hactive.
  unfold handleKeyDown, getFocusableElements, modalRef. unfold_handler. cbn.
  rewrite Hd, Hfirst, Hlast.
  destruct (decide (length (panelFocusable (dom b)) = 0%nat)) as [Hlen|_].
  { destruct (panelFocusable (dom b)); discriminate. }
  assert (Hcond : sameNode (activeElement (dom b)) (Some lst)
                  || negb (containsNode Panel (activeElement (dom b))) = true).
  { destruct Hactive as [-> | ->]; cbn.
    - rewrite bool_decide_eq_true_2 by reflexivity. reflexivity.
    - apply orb_true_r. }
  rewrite Hcond. reflexivity.
Qed.

(** The same for Shift+Tab, from the first element to the last. *)
Lemma handleKeyDown_ShiftTab_wraps (props : ModalProps) (b : Batch) (first lst : Elem) :
  dialogRendered (dom b) = true ->
  list.head (panelFocusable (dom b)) = Some first ->
  list.last (panelFocusable (dom b)) = Some lst ->
  activeElement (dom b) = Some first \/
    containsNode Panel (activeElement (dom b)) = false ->
  exec (handleKeyDown props (mkKey Tab true)) b =
    mkBatch (queuedHooks b) (queuedModalState b) (focusEnv lst (dom b)) (trace b)
      (propagationStopped b) true.
Proof.
  intros Hd Hfirst Hlast Hactive.
  unfold handleKeyDown, getFocusableElements, modalRef. unfold_handler. cbn.
  rewrite Hd, Hfirst, Hlast.
  destruct (decide (length (panelFocusable (dom b)) = 0%nat)) as [Hlen|_].
  { destruct (panelFocusable (dom b)); discriminate. }
  assert (Hcond : sameNode (activeElement (dom b)) (Some first)
                  || negb (containsNode Panel (activeElement (dom b))) = true).
  { destruct Hactive as [-> | ->]; cbn.
    - rewrite bool_decide_eq_true_2 by reflexivity. reflexivity.
    - apply orb_true_r. }
  rewrite Hcond. reflexivity.
Qed.

(** A key pressed while focus is inside the panel never reaches the
    listener on [document]: the panel's [onKeyDown] stops the propagation
    first.  Nothing is called, nothing is queued, the default action is
    not cancelled and focus is not moved. *)
Lemma keydown_inside_panel_unheard (s : System) (e : KeyboardEvent) (n : Elem) :
  activeElement (document s) = Some n -> panelContains n = true ->
  exec (dispatch s (KeyDown e)) (startBatch s) =
    mkBatch (hooks s) None (document s) [] true false.
Proof.
  intros Ha Hn. unfold dispatch, dispatchKeyDown, withFocusOut, lostFocus.
  unfold_handler. cbn [startBatch dom]. rewrite Ha.
  destruct n; try discriminate Hn; cbn; unfold_handler; cbn; rewrite ?Ha; reflexivity.
Qed.

(** A key pressed while focus is outside the dialog reaches the
    listeners on [document]. *)
Lemma keydown_outside_dialog_heard (s : System) (e : KeyboardEvent) :
  match activeElement (document s) with
  | Some n => inDialog n = false
  | None => True
  end ->
  exec (dispatch s (KeyDown e)) (startBatch s) =
    exec (runListeners (keydownListeners (document s)) e) (startBatch s).
Proof.
  intros Ha. unfold dispatch, dispatchKeyDown, withFocusOut, lostFocus.
  unfold_handler. cbn [startBatch dom].
  destruct (activeElement (document s)) as [[]|]; try discriminate Ha;
    cbn; unfold_handler; cbn;
    destruct (runListeners (keydownListeners (document s)) e (startBatch s));
    reflexivity.
Qed.

(** In every open state, Tab pressed while focus has left the panel is
    heard by the listener, which brings focus back to the first
    focusable element of the panel; Shift+Tab brings it to the last. *)
Lemma tab_outside_panel_trapped (s : System) (shift : bool) :
  Inv s -> isOpen (modalState s) = true ->
  match activeElement (document s) with
  | Some n => inDialog n = false
  | None => True
  end ->
  activeElement (document (step s (KeyDown (mkKey Tab shift)))) =
    Some (if shift then SubmitButton else NameInput).
Proof.
  intros HI Hopen Ha.
  destruct HI as [h lf a det rm fr hist Hq Hh|p h lf lid tid a tms det rm fr hist Hq Hh Hp Hl Ht Hr Htm];
    cbn in Hopen; [discriminate|].
  cbn in Ha.
  destruct a as [[]|], shift; try discriminate Ha; eval_step; eval_focus; reflexivity.
Qed.

(** ** What the close paths do to the form *)

(** No click and no key press changes the hooks of the form: the only
    reset is the one in [handleSubmit]. *)
Lemma hooks_pointer_or_key (s : System) (ev : Event) :
  Inv s -> isPointerOrKey ev = true -> hooks (step s ev) = hooks s.
Proof.
  intros HI Hev.
  destruct HI as [h lf a det rm fr hist Hq Hh|p h lf lid tid a tms det rm fr hist Hq Hh Hp Hl Ht Hr Htm];
    destruct ev as [target|[k sh]|  |field value|field|id|node|n]; try discriminate Hev.
  - destruct target; eval_step; eval_focus; reflexivity.
  - destruct a as [[]|], k, sh; eval_step; reflexivity.
  - destruct target; eval_step; eval_focus; reflexivity.
  - destruct a as [[]|], k, sh; eval_step; eval_focus; reflexivity.
Qed.

(** Escape pressed while focus is outside the panel: the listener calls
    the close callback once, which resolves the pending promise with
    [null] and closes the modal. *)
Lemma escape_outside_panel_closes (s : System) (p : PromiseId) :
  Inv s -> resolve (modalState s) = Some p ->
  containsNode Panel (activeElement (document s)) = false ->
  history (step s (KeyDown escape)) =
    history s ++ [OnClose; Resolve p None; SetModalState (mkModalState false None)] /\
  modalState (step s (KeyDown escape)) = mkModalState false None.
Proof.
  intros HI Hp Ha.
  destruct HI as [h lf a det rm fr hist Hq Hh|p' h lf lid tid a tms det rm fr hist Hq Hh Hp' Hl Ht Hr Htm];
    cbn in Hp; [discriminate|].
  injection Hp as ->. cbn in Ha.
  destruct a as [[]|]; try discriminate Ha; eval_step; eval_focus; split; reflexivity.
Qed.

(** C5, at a failing input.  The user opens the modal, types 'A' in the
    name field and leaves the field, which stores a value, an error
    message and a touched flag; the modal is then closed by Cancel, by a
    click on the backdrop, or by Escape (focus is still on the "open"
    button), and opened again.  In each case the new session starts with
    the value, the message and the flag of the previous one. *)
Theorem form_state_survives_cancel :
  let stale (s : System) :=
    isOpen (modalState s) = true /\
    name (formData (hooks s)) = [65] /\
    readError (errors (hooks s)) key_name = Some Messages.nameTooShort /\
    isTouched (touched (hooks s)) key_name = true in
  stale (run typedA [Click CancelButton; Click OpenButton]) /\
  stale (run typedA [Click Overlay; Click OpenButton]) /\
  stale (run typedA [KeyDown escape; Click OpenButton]).
Proof. cbv zeta. repeat split; vm_compute; reflexivity. Qed.

(** The sibling path: a submit without errors resets the form, so the
    next session starts empty. *)
Lemma form_state_reset_by_submit :
  let s := run justOpened
             [Change key_name [65; 108]; Change key_email [97; 64; 98; 46; 99];
              Submit; Click OpenButton] in
  isOpen (modalState s) = true /\ hooks s = initialHooks.
Proof. cbv zeta. split; vm_compute; reflexivity. Qed.

(** C6, at a failing input.  The modal is open and focus is on the
    submit button, the last focusable element of the panel; Tab is
    pressed.  The listener does not run: the default action is not
    cancelled and focus is not sent to the first element.  The same
    holds for Shift+Tab on the name input, the first focusable element. *)
Theorem tab_inside_panel_not_trapped :
  isOpen (modalState focusOnSubmit) = true /\
  activeElement (document focusOnSubmit) = Some SubmitButton /\
  list.last (panelFocusable (document focusOnSubmit)) = Some SubmitButton /\
  list.head (panelFocusable (document focusOnSubmit)) = Some NameInput /\
  (let b := exec (dispatch focusOnSubmit (KeyDown tab)) (startBatch focusOnSubmit) in
   defaultPrevented b = false /\ activeElement (dom b) = Some SubmitButton) /\
  activeElement (document (step focusOnSubmit (KeyDown tab))) = Some SubmitButton /\
  activeElement (document focusInDialog) = Some NameInput /\
  (let b := exec (dispatch focusInDialog (KeyDown shiftTab)) (startBatch focusInDialog) in
   defaultPrevented b = false /\ activeElement (dom b) = Some NameInput) /\
  activeElement (document (step focusInDialog (KeyDown shiftTab))) = Some NameInput.
Proof. cbv zeta. repeat split; vm_compute; reflexivity. Qed.

(** C7, at a failing input.  The modal is open and focus is where the
    component itself puts it, on the name input; Escape is pressed.  The
    close callback is not called, no promise is resolved, the modal stays
    open and focus stays on the name input. *)
Theorem escape_inside_panel_does_not_close :
  activeElement (document focusInDialog) = Some NameInput /\
  resolve (modalState focusInDialog) = Some 1%nat /\
  let s' := step focusInDialog (KeyDown escape) in
  isOpen (modalState s') = true /\
  filter isOnClose (history s') = [] /\
  resolvedIds (history s') = [] /\
  activeElement (document s') = Some NameInput.
Proof. cbv zeta. repeat split; vm_compute; reflexivity. Qed.

(** Before the focus timer fires, focus is still on the "open" button,
    outside the panel, and Escape does what is expected of it. *)
Lemma escape_before_focus_closes :
  let s' := step justOpened (KeyDown escape) in
  isOpen (modalState s') = false /\
  filter isOnClose (history s') = [OnClose] /\
  resolvedIds (history s') = [1%nat] /\
  activeElement (document s') = Some OpenButton.
Proof. cbv zeta. repeat split; vm_compute; reflexivity. Qed.

(** * Further properties of the code *)

(** ** Validation *)

(** [validateForm] holds a key exactly for the fields that
    [validateField] rejects, with the message it gives; it is empty
    exactly when every field passes. *)
Theorem validateForm_collects_errors (data : FormData) (field : Field) :
  (is_Some (validateForm data !! field) <->
     is_Some (validateField field (getField data field))) /\
  readError (validateForm data) field = validateField field (getField data field) /\
  (keysLength (validateForm data) = 0%nat <->
     forall f, validateField f (getField data f) = None).
Proof.
  split; [|split].
  - rewrite validateForm_lookup.
    destruct (validateField field (getField data field)); split; intros [x Hx];
      try discriminate; eexists; reflexivity.
  - apply readError_validateForm.
  - rewrite keysLength_zero. apply validateForm_empty.
Qed.

Lemma messages_distinct :
  Messages.nameTooShort <> Messages.nameRequired /\
  Messages.emailInvalid <> Messages.emailRequired.
Proof.
  split; intros H; apply (f_equal (@length N)) in H; vm_compute in H; discriminate H.
Qed.

(** A blank value, and only a blank value, gets the "required" message
    of its field; and no message is the empty string. *)
Theorem validateField_blank (field : Field) (v : jsstring) :
  (trim v = [] <-> validateField field v = Some (requiredMessage field)) /\
  (forall m, validateField field v = Some m -> m <> []).
Proof.
  destruct messages_distinct as [Hname Hemail].
  split.
  - unfold validateField, requiredMessage.
    destruct (truthy (trim v)) eqn:Ht; cbn [negb].
    + apply truthy_true in Ht. split; [intros He; contradiction|].
      intros H. exfalso. destruct field.
      * destruct (length (trim v) <? 2)%nat; [|discriminate H].
        apply Hname. congruence.
      * destruct (negb (test emailRegex v)); [|discriminate H].
        apply Hemail. congruence.
    + apply truthy_false in Ht. destruct field; split; auto.
  - intros m Hm. apply validateField_truthy in Hm. apply truthy_true, Hm.
Qed.

Lemma trimStart_fixed (s : jsstring) :
  (forall c rest, s = c :: rest -> isWhiteSpace c = false) -> trimStart s = s.
Proof.
  destruct s as [|c s]; [reflexivity|]. intros H. cbn.
  rewrite (H c s eq_refl). reflexivity.
Qed.

Lemma trim_fixed (s : jsstring) :
  (forall c rest, s = c :: rest -> isWhiteSpace c = false) ->
  (forall c init, s = init ++ [c] -> isWhiteSpace c = false) ->
  trim s = s.
Proof.
  intros Hfirst Hlast. unfold trim, trimEnd.
  rewrite (trimStart_fixed s Hfirst).
  rewrite trimStart_fixed; [apply rev_involutive|].
  intros c rest Hr. apply (Hlast c (rev rest)).
  rewrite <- (rev_involutive s), Hr. reflexivity.
Qed.

Lemma trim_idempotent (v : jsstring) : trim (trim v) = trim v.
Proof.
  destruct (trim_spec v) as (_ & _ & _ & _ & _ & Hfirst & Hlast).
  apply trim_fixed; assumption.
Qed.

(** White space around a name does not count: the verdict on a name is
    the verdict on its trimmed form, whatever white space is added at
    either end. *)
Theorem validateField_name_ignores_padding (v l r : jsstring) :
  Forall (fun c => isWhiteSpace c = true) l ->
  Forall (fun c => isWhiteSpace c = true) r ->
  validateField key_name (l ++ trim v ++ r) = validateField key_name v.
Proof.
  intros Hl Hr.
  assert (Htrim : trim (l ++ trim v ++ r) = trim v).
  { destruct (trim_spec v) as (_ & _ & _ & _ & _ & Hfirst & Hlast).
    assert (Hstart : forall ws s, Forall (fun c => isWhiteSpace c = true) ws ->
                                  trimStart (ws ++ s) = trimStart s).
    { intros ws s Hws. induction Hws as [|c ws Hc _ IH]; [reflexivity|].
      cbn. rewrite Hc. exact IH. }
    unfold trim at 1, trimEnd.
    rewrite (Hstart l _ Hl).
    destruct (trim v) as [|c t] eqn:Et.
    - cbn. assert (Hall : trimStart r = []).
      { clear -Hr. induction Hr as [|c r Hc _ IH]; [reflexivity|]. cbn. rewrite Hc. exact IH. }
      rewrite Hall. reflexivity.
    - change ((c :: t) ++ r) with (c :: (t ++ r)). cbn [trimStart].
      rewrite (Hfirst c t eq_refl).
      change (c :: t ++ r) with ((c :: t) ++ r).
      rewrite rev_app_distr.
      rewrite (Hstart (rev r) _ (Forall_rev Hr)).
      rewrite trimStart_fixed; [apply rev_involutive|].
      intros a rest Ha. apply (Hlast a (rev rest)).
      rewrite <- (rev_involutive (c :: t)), Ha. reflexivity. }
  unfold validateField. rewrite Htrim. reflexivity.
Qed.

Lemma validateField_name_ignores_padding_witness :
  validateField key_name ([32; 9] ++ trim [32; 65; 108; 32] ++ [10]) =
  validateField key_name [32; 65; 108; 32].
Proof.
  apply (validateField_name_ignores_padding [32; 65; 108; 32] [32; 9] [10]);
    repeat constructor.
Defined.

Lemma notSpaceNorAt_true (c : N) :
  notSpaceNorAt c = true -> isWhiteSpace c = false /\ c <> 64.
Proof.
  unfold notSpaceNorAt. rewrite negb_true_iff, orb_false_iff, N.eqb_neq. tauto.
Qed.

Lemma segment_facts (s : list N) :
  segment s ->
  (1 <= length s)%nat /\
  Forall (fun c => isWhiteSpace c = false) s /\
  filter (fun c => c = 64) s = [].
Proof.
  unfold jsstring in *. intros [Hne Hall]. split; [destruct s; [congruence | cbn; lia]|].
  clear Hne. induction Hall as [|c s Hc _ [IH1 IH2]]; [split; [constructor | reflexivity]|].
  apply notSpaceNorAt_true in Hc as [Hws Hat]. split.
  - constructor; assumption.
  - rewrite filter_cons_False by exact Hat. exact IH2.
Qed.

(** What every accepted e-mail address has: no white space anywhere, so
    that, unlike a name, an address with white space around it is
    rejected; exactly one [@]; and at least five code units. *)
Theorem accepted_email_facts (v : jsstring) :
  validateField key_email v = None ->
  trim v = v /\
  Forall (fun c => isWhiteSpace c = false) v /\
  length (filter (fun c => c = 64) v) = 1%nat /\
  (5 <= length v)%nat.
Proof.
  unfold jsstring in *. intros Hok.
  assert (Hshape : emailShape v).
  { rewrite validateField_email_cases in Hok.
    destruct (decide (trim v = [])); [discriminate|].
    destruct (test emailRegex v) eqn:Ht; [|discriminate].
    apply emailRegex_shape, test_Matches, Ht. }
  destruct Hshape as (l & d & t & -> & Hl & Hd & Ht).
  apply segment_facts in Hl as (Hl1 & Hl2 & Hl3).
  apply segment_facts in Hd as (Hd1 & Hd2 & Hd3).
  apply segment_facts in Ht as (Ht1 & Ht2 & Ht3).
  assert (Hall : Forall (fun c => isWhiteSpace c = false) (l ++ 64 :: d ++ 46 :: t)).
  { apply Forall_app. split; [assumption|].
    constructor; [reflexivity|].
    apply Forall_app. split; [assumption|].
    constructor; [reflexivity | assumption]. }
  split; [|split; [exact Hall|split]].
  - apply trim_fixed.
    + intros c rest Hc. rewrite Hc in Hall. inversion Hall; assumption.
    + intros c init Hc. rewrite Hc in Hall.
      apply Forall_app in Hall as [_ Hlast]. inversion Hlast; assumption.
  - rewrite list.filter_app, Hl3.
    rewrite filter_cons_True by reflexivity.
    rewrite list.filter_app, Hd3.
    rewrite filter_cons_False by discriminate.
    rewrite Ht3. reflexivity.
  - rewrite length_app. cbn [length]. rewrite length_app. cbn [length]. lia.
Qed.

Lemma accepted_email_facts_witness :
  validateField key_email shortestEmail = None /\ (5 <= length shortestEmail)%nat.
Proof.
  assert (Hok : validateField key_email shortestEmail = None) by reflexivity.
  split; [exact Hok|].
  apply (accepted_email_facts shortestEmail Hok).
Defined.

(** ** The form state along every run *)

(** Induction over the reachable states, with the shape invariant at
    hand. *)
Lemma reachable_invariant (P : System -> Prop) :
  (forall prefersReducedMotion, P (initialSystem prefersReducedMotion)) ->
  (forall s ev, Inv s -> P s -> P (step s ev)) ->
  forall s, reachable s -> P s.
Proof.
  intros Hinit Hstep s (m & evs & ->).
  assert (H : forall evs s, Inv s -> P s -> P (run s evs)).
  { clear evs. induction evs as [|ev evs IH]; intros s HI HP; [assumption|].
    apply IH; [apply Inv_step, HI | apply Hstep; assumption]. }
  apply H; [apply Inv_initial | apply Hinit].
Qed.

(** Moves of the focus by the user and removals of foreign elements
    leave the form alone. *)
Lemma hooks_step_other (s : System) (ev : Event) :
  isPointerOrKey ev = false -> isFormEvent ev = false -> ev <> Submit ->
  (forall id, ev <> TimerFired id) ->
  hooks (step s ev) = hooks s.
Proof.
  intros Hpk Hform Hsub Htimer. unfold step. rewrite hooks_commit.
  destruct ev; try discriminate; try congruence; unfold dispatch.
  - reflexivity.
  - reflexivity.
Qed.

(** A timer leaves the form alone unless its [focus()] takes focus from
    an input, whose blur handler then runs. *)
Lemma hooks_step_TimerFired (s : System) (id : nat) :
  hooks (step s (TimerFired id)) = hooks s \/
  exists field, hooks (step s (TimerFired id)) = blurred (hooks s) field.
Proof.
  unfold step. rewrite hooks_commit. unfold dispatch.
  destruct (isPending id (document s)); [|left; reflexivity].
  unfold withFocusOut, lostFocus, focusFirstInput, firstInputRef, handleBlur.
  unfold_handler. cbn.
  destruct (document s) as [[[]|] ov ls tms [] pf det rm]; cbn;
    first [ left; reflexivity
          | right; exists key_name; reflexivity
          | right; exists key_email; reflexivity ].
Qed.

Lemma hooks_step_Submit (s : System) :
  hooks (step s Submit) =
    if dialogRendered (document s) then
      if decide (validateForm (formData (hooks s)) = ∅) then initialHooks
      else mkHooks (formData (hooks s)) (validateForm (formData (hooks s))) allTouched
    else hooks s.
Proof.
  unfold step. rewrite hooks_commit. unfold dispatch.
  destruct (dialogRendered (document s)); [|reflexivity].
  rewrite handleSubmit_exec. cbn zeta.
  destruct (decide (validateForm (formData (hooks s)) = ∅)); reflexivity.
Qed.

Lemma hooks_step_form_closed (s : System) (ev : Event) :
  isFormEvent ev = true -> dialogRendered (document s) = false ->
  hooks (step s ev) = hooks s.
Proof.
  intros Hev Hd. unfold step. rewrite hooks_commit.
  destruct ev; try discriminate; unfold dispatch; rewrite Hd; reflexivity.
Qed.

Lemma getField_setField_other (d : FormData) (f g : Field) (value : jsstring) :
  f <> g -> getField (setField d f value) g = getField d g.
Proof. destruct f, g; intros H; try congruence; reflexivity. Qed.

Lemma synced_step (s : System) (ev : Event) :
  Inv s -> syncedHooks (hooks s) -> syncedHooks (hooks (step s ev)).
Proof.
  intros HI Hs.
  destruct ev as [target|e| |field value|field|id|node|n].
  - rewrite hooks_pointer_or_key by (assumption || reflexivity). exact Hs.
  - rewrite hooks_pointer_or_key by (assumption || reflexivity). exact Hs.
  - rewrite hooks_step_Submit.
    destruct (dialogRendered (document s)); [|exact Hs].
    destruct (decide (validateForm (formData (hooks s)) = ∅)).
    + intros g. reflexivity.
    + intros g. cbn. rewrite isTouched_allTouched. apply readError_validateForm.
  - destruct (dialogRendered (document s)) eqn:Hd;
      [|rewrite hooks_step_form_closed by (assumption || reflexivity); exact Hs].
    rewrite hooks_step_Change by exact Hd. intros g. cbn.
    destruct (decide (field = g)) as [<-|Hne].
    + rewrite getField_setField.
      destruct (isTouched (touched (hooks s)) field) eqn:Ht.
      * rewrite readError_insert.
        destruct (decide (field = field)); [reflexivity | congruence].
      * rewrite (Hs field), Ht. reflexivity.
    + rewrite getField_setField_other by exact Hne.
      rewrite <- (Hs g).
      destruct (isTouched (touched (hooks s)) field); [|reflexivity].
      rewrite readError_insert. destruct (decide (field = g)); [congruence | reflexivity].
  - destruct (dialogRendered (document s)) eqn:Hd;
      [|rewrite hooks_step_form_closed by (assumption || reflexivity); exact Hs].
    rewrite hooks_step_Blur by exact Hd. intros g. cbn.
    rewrite readError_insert, isTouched_insert.
    destruct (decide (field = g)) as [<-|Hne]; [reflexivity | apply Hs].
  - destruct (hooks_step_TimerFired s id) as [->|[field ->]]; [exact Hs|].
    intros g. unfold blurred. cbn.
    rewrite readError_insert, isTouched_insert.
    destruct (decide (field = g)) as [<-|Hne]; [reflexivity | apply Hs].
  - rewrite hooks_step_other by (reflexivity || discriminate). exact Hs.
  - rewrite hooks_step_other by (reflexivity || discriminate). exact Hs.
Qed.

Lemma reachable_synced (s : System) : reachable s -> syncedHooks (hooks s).
Proof.
  apply (reachable_invariant (fun s => syncedHooks (hooks s))).
  - intros m g. reflexivity.
  - apply synced_step.
Qed.

(** In every state the page can reach, the error stored for a field is
    never stale: it is [validateField] of the field's current value when
    the field is touched, and there is none when it is not. *)
Theorem stored_errors_in_sync (s : System) (field : Field) :
  reachable s ->
  readError (errors (hooks s)) field =
    if isTouched (touched (hooks s)) field
    then validateField field (getField (formData (hooks s)) field)
    else None.
Proof. intros Hr. apply (reachable_synced s Hr). Qed.

Lemma reachable_typedA : reachable typedA.
Proof. apply reachable_run, reachable_justOpened. Qed.

Lemma stored_errors_in_sync_witness :
  readError (errors (hooks typedA)) key_name = Some Messages.nameTooShort /\
  readError (errors (hooks typedA)) key_email = None.
Proof.
  split.
  - rewrite (stored_errors_in_sync typedA key_name reachable_typedA). reflexivity.
  - rewrite (stored_errors_in_sync typedA key_email reachable_typedA). reflexivity.
Defined.

(** In every state the page can reach, an input is marked
    [aria-invalid] exactly when its field is touched and its current
    value fails validation; it then carries an [aria-describedby], and
    the element this refers to is rendered: the alert of that field,
    whose text is the message of [validateField].  Otherwise there is
    neither reference nor alert. *)
Theorem rendered_field_consistent (s : System) (field : Field) :
  reachable s ->
  let view := renderField (hooks s) field in
  let shown :=
    if isTouched (touched (hooks s)) field
    then validateField field (getField (formData (hooks s)) field)
    else None in
  inputValue view = getField (formData (hooks s)) field /\
  ariaInvalid view = bool_decide (is_Some shown) /\
  ariaDescribedBy view = (fun _ => errorId field) <$> shown /\
  alert view = (fun message => (errorId field, message)) <$> shown /\
  inputId view <> errorId field.
Proof.
  intros Hr view shown. subst view. unfold renderField. cbn.
  rewrite (reachable_synced s Hr field). fold shown.
  assert (Htruthy : forall m, shown = Some m -> truthy m = true).
  { intros m Hm. subst shown.
    destruct (isTouched (touched (hooks s)) field); [|discriminate].
    apply (validateField_truthy _ _ _ Hm). }
  split; [reflexivity|].
  destruct shown as [m|]; cbn.
  - rewrite (Htruthy m eq_refl). repeat split; destruct field; discriminate.
  - repeat split; destruct field; discriminate.
Qed.

Lemma rendered_field_consistent_witness :
  ariaInvalid (renderField (hooks typedA) key_name) = true /\
  alert (renderField (hooks typedA) key_name) =
    Some (nameErrorId, Messages.nameTooShort).
Proof.
  pose proof (rendered_field_consistent typedA key_name reachable_typedA) as H.
  cbv zeta in H. destruct H as (_ & -> & _ & -> & _). split; reflexivity.
Defined.

(** ** What reaches the submit callback and the promise *)

Ltac close_validated :=
  let Hv := fresh "Hv" in
  let x := fresh "x" in
  let Hx := fresh "Hx" in
  intros Hv x Hx;
  apply elem_of_app in Hx as [Hx|Hx];
  [ apply Hv; exact Hx
  | repeat (apply elem_of_cons in Hx as [->|Hx]);
    try exact I; try assumption; try (inversion Hx; fail) ].

Lemma validated_step (s : System) (ev : Event) :
  Inv s -> validatedHistory (history s) -> validatedHistory (history (step s ev)).
Proof.
  intros HI. unfold validatedHistory.
  step_cases HI ev close_validated.
Qed.

(** In every state the page can reach, whatever was handed to the submit
    callback, and whatever a promise was resolved with other than
    [null], had passed the validation of the whole form. *)
Theorem results_are_validated (s : System) (p : PromiseId) (data : FormData) :
  reachable s ->
  (OnSubmit data ∈ history s -> validateForm data = ∅) /\
  (Resolve p (Some data) ∈ history s -> validateForm data = ∅).
Proof.
  intros Hr.
  assert (Hv : validatedHistory (history s)).
  { revert s Hr. apply (reachable_invariant (fun s => validatedHistory (history s))).
    - intros m x Hx. inversion Hx.
    - apply validated_step. }
  split; intros Hin; apply (Hv _ Hin).
Qed.

Lemma reachable_submittedAl : reachable submittedAl.
Proof. apply reachable_run, reachable_justOpened. Qed.

Lemma results_are_validated_witness :
  validateForm (mkFormData [65; 108] shortestEmail) = ∅.
Proof.
  apply (results_are_validated submittedAl 1%nat (mkFormData [65; 108] shortestEmail)
           reachable_submittedAl).
  apply list_elem_of_In. vm_compute.
  repeat (first [left; reflexivity | right]).
Defined.

(** ** The lifecycle *)

(** In every state the page can reach, the modal is open exactly while a
    request is pending, and exactly then the dialog is rendered, the
    scroll lock is on, and one key listener is registered, which was
    created with the current close handler; while it is closed there is
    no listener, no pending timer and no scroll lock.  Listeners and
    timers do not pile up over repeated opens. *)
Theorem lifecycle_invariant (s : System) :
  reachable s ->
  if isOpen (modalState s) then
    is_Some (resolve (modalState s)) /\
    dialogRendered (document s) = true /\
    bodyOverflow (document s) = hidden /\
    (exists c,
       effectCleanup s = Some c /\
       keydownListeners (document s) = [registered c] /\
       listenerScope (registered c) = modalState s /\
       (timers (document s) = [] \/
        exists delay, timers (document s) = [mkTimer (focusTimeout c) delay]))
  else
    resolve (modalState s) = None /\
    dialogRendered (document s) = false /\
    bodyOverflow (document s) = [] /\
    effectCleanup s = None /\
    keydownListeners (document s) = [] /\
    timers (document s) = [].
Proof.
  intros Hr. destruct (reachable_Inv s Hr); cbn.
  - repeat split.
  - repeat split; [eexists; reflexivity|].
    eexists. repeat split. cbn. assumption.
Qed.

Lemma lifecycle_invariant_witness :
  bodyOverflow (document justOpened) = hidden /\
  bodyOverflow (document (step justOpened (Click CancelButton))) = [].
Proof.
  split.
  - apply (lifecycle_invariant justOpened reachable_justOpened).
  - apply (lifecycle_invariant (step justOpened (Click CancelButton))
             (reachable_step _ _ reachable_justOpened)).
Defined.

(** Opening from a closed state: a new request is put in the slot, the
    focused element is captured, scrolling is locked, one listener is
    registered, and the focus timer is set, with no delay when reduced
    motion is preferred and 100 ms otherwise; focus itself and the form
    are not touched yet. *)
Theorem open_sets_up (s : System) :
  reachable s -> isOpen (modalState s) = false ->
  let s' := step s (Click OpenButton) in
  modalState s' = mkModalState true (Some (fresh s)) /\
  lastFocusedElement s' = activeElement (document s) /\
  activeElement (document s') = activeElement (document s) /\
  bodyOverflow (document s') = hidden /\
  (exists l t,
     keydownListeners (document s') = [l] /\
     timers (document s') = [t] /\
     effectCleanup s' = Some (mkCleanup l (timerId t)) /\
     timerDelay t = if reducedMotion (document s) then 0 else 100) /\
  hooks s' = hooks s /\
  history s' = history s ++ [SetModalState (mkModalState true (Some (fresh s)))].
Proof.
  intros Hr Hclosed.
  destruct (reachable_Inv s Hr); cbn in Hclosed; [|discriminate].
  eval_step. repeat split.
  all: try (destruct a; reflexivity).
  eexists _, _. repeat split.
Qed.

Lemma open_sets_up_witness :
  modalState (step (initialSystem true) (Click OpenButton)) =
    mkModalState true (Some 0%nat) /\
  timers (document (step (initialSystem true) (Click OpenButton))) = [mkTimer 2 0].
Proof.
  assert (Hr : reachable (initialSystem true)) by (exists true, []; reflexivity).
  pose proof (open_sets_up (initialSystem true) Hr eq_refl) as H.
  cbv zeta in H. destruct H as (-> & _). split; reflexivity.
Defined.

(** The focus timer.  While the modal is closed no timer is pending, so
    a timer that fires changes nothing: there is no stray jump of the
    focus after a close.  A timer that is pending fires while the modal
    is open, puts focus on the name input, and leaves no timer pending.
    No timer changes the page state or the values of the form, calls a
    callback or resolves a promise.  What a timer does to the form is
    what its [focus()] causes: when it takes focus from the e-mail input
    (the user went there before the delay was over), the blur handler of
    that input runs in the same step, which marks the field touched and
    stores the validation of its value; in every other case the errors
    and the touched flags stay as they were and nothing is recorded. *)
Theorem focus_timer (s : System) (id : nat) :
  reachable s ->
  let s' := step s (TimerFired id) in
  (isOpen (modalState s) = false -> s' = mkSystem (modalState s) (hooks s)
     (lastFocusedElement s) (effectCleanup s) (document s) (S (fresh s)) (history s)) /\
  (isPending id (document s) = true ->
     isOpen (modalState s) = true /\
     activeElement (document s') = Some NameInput /\
     timers (document s') = []) /\
  modalState s' = modalState s /\
  formData (hooks s') = formData (hooks s) /\
  filter isOnClose (history s') = filter isOnClose (history s) /\
  filter isOnSubmit (history s') = filter isOnSubmit (history s) /\
  resolvedIds (history s') = resolvedIds (history s) /\
  (takesFocusFromEmail id (document s) = false ->
     hooks s' = hooks s /\ history s' = history s) /\
  (takesFocusFromEmail id (document s) = true ->
     hooks s' = blurred (hooks s) key_email /\
     history s' =
       history s ++ [SetTouched (touched (blurred (hooks s) key_email));
                     SetErrors (errors (blurred (hooks s) key_email))]).
Proof.
  intros Hr.
  destruct (reachable_Inv s Hr) as [h lf a det rm fr hist Hq Hh
                                   |p h lf lid tid a tms det rm fr hist Hq Hh Hp Hl Ht Hr' Htm].
  - unfold step, dispatch, takesFocusFromEmail. cbn [document]. rewrite isPending_none.
    eval_step. rewrite app_nil_r.
    repeat split; try discriminate; destruct a as [[]|]; discriminate.
  - destruct Htm as [->|[delay ->]]; unfold step, dispatch, takesFocusFromEmail;
      cbn [document].
    + rewrite isPending_none. eval_step. rewrite app_nil_r.
      repeat split; try discriminate; destruct a as [[]|]; discriminate.
    + rewrite isPending_one.
      destruct (decide (id = tid)) as [->|Hne];
        [rewrite bool_decide_eq_true_2 by reflexivity
        |rewrite bool_decide_eq_false_2 by assumption];
        eval_step; eval_focus; rewrite ?app_nil_r, ?list.filter_app, ?resolvedIds_app;
        cbn; rewrite ?app_nil_r;
        repeat split; try discriminate.
Qed.

Lemma focus_timer_witness :
  activeElement (document (step justOpened (TimerFired 3))) = Some NameInput.
Proof.
  apply (focus_timer justOpened 3 reachable_justOpened). reflexivity.
Defined.

(** The user goes to the e-mail input before the delay is over: the
    timer then takes focus from it, and the field is touched and shows
    that it is required although nothing was typed. *)
Lemma focus_timer_blurs_email :
  let s := run justOpened [FocusMoved EmailInput] in
  let s' := step s (TimerFired 3) in
  activeElement (document s') = Some NameInput /\
  isTouched (touched (hooks s')) key_email = true /\
  readError (errors (hooks s')) key_email = Some (requiredMessage key_email).
Proof. vm_compute. repeat split. Qed.

(** ** How a session ends *)

(** A submit of a form without errors, with request [p] pending: the
    submit callback is called once with the current values, promise [p]
    is resolved with exactly those values, that being its only
    fulfilment, the modal closes and the form is reset. *)
Theorem submit_resolves_with_values (s : System) (p : PromiseId) :
  reachable s ->
  resolve (modalState s) = Some p ->
  validateForm (formData (hooks s)) = ∅ ->
  let data := formData (hooks s) in
  let s' := step s Submit in
  history s' =
    history s ++
      [SetTouched allTouched; SetErrors ∅; OnSubmit data; Resolve p (Some data);
       SetModalState (mkModalState false None);
       SetFormData (mkFormData [] []); SetErrors ∅; SetTouched ∅] /\
  fulfillments p (history s') = 1%nat /\
  modalState s' = mkModalState false None /\
  hooks s' = initialHooks.
Proof.
  intros Hr Hp Hok data s'. subst data s'.
  destruct (reachable_Inv s Hr) as [h lf a det rm fr hist Hq Hh
                                   |p' h lf lid tid a tms det rm fr hist Hq Hh Hp' Hl Ht Hr' Htm];
    cbn in Hp; [discriminate|].
  injection Hp as ->. cbn in Hok.
  assert (Hstep : forall tms',
    let s0 := mkSystem (mkModalState true (Some p)) h lf
                (Some (mkCleanup (mkListener lid (mkModalState true (Some p))) tid))
                (mkEnv a hidden [mkListener lid (mkModalState true (Some p))] tms'
                   true renderedFocusable det rm) fr hist in
    history (step s0 Submit) =
      hist ++ [SetTouched allTouched; SetErrors ∅; OnSubmit (formData h);
               Resolve p (Some (formData h)); SetModalState (mkModalState false None);
               SetFormData (mkFormData [] []); SetErrors ∅; SetTouched ∅] /\
    modalState (step s0 Submit) = mkModalState false None /\
    hooks (step s0 Submit) = initialHooks).
  { intros tms' s0. subst s0. unfold step, dispatch.
    cbn [document dialogRendered modalState hooks].
    rewrite handleSubmit_exec. cbn zeta.
    destruct (decide (validateForm (formData h) = ∅)); [|contradiction].
    eval_step; eval_focus; repeat split. }
  destruct (Hstep tms) as (Hhist & Hms & Hhooks). cbv zeta in Hhist, Hms, Hhooks.
  split; [exact Hhist|]. split; [|split; [exact Hms | exact Hhooks]].
  etransitivity; [exact (f_equal (fulfillments p) Hhist)|]. unfold fulfillments. rewrite resolvedIds_app. cbn [resolvedIds].
  rewrite list.filter_app, (filter_absent p _ Hr').
  rewrite filter_cons_True by reflexivity. reflexivity.
Qed.

Lemma submit_resolves_with_values_witness :
  fulfillments 1%nat (history (step filledAl Submit)) = 1%nat /\
  hooks (step filledAl Submit) = initialHooks.
Proof.
  assert (Hr : reachable filledAl) by (apply reachable_run, reachable_justOpened).
  assert (Hok : validateForm (formData (hooks filledAl)) = ∅).
  { apply validateForm_empty. intros []; reflexivity. }
  pose proof (submit_resolves_with_values filledAl 1%nat Hr eq_refl Hok) as H.
  cbv zeta in H. destruct H as (_ & H1 & _ & H2). split; assumption.
Defined.

(** Cancel and a click on the backdrop, with request [p] pending: the
    close callback is called once, promise [p] is resolved with [null],
    that being its only fulfilment, the modal closes, and the form keeps
    what was typed. *)
Theorem cancel_resolves_with_null (s : System) (p : PromiseId) (target : Elem) :
  reachable s ->
  resolve (modalState s) = Some p ->
  isCloseTarget target = true ->
  let s' := step s (Click target) in
  history s' =
    history s ++ [OnClose; Resolve p None; SetModalState (mkModalState false None)] /\
  fulfillments p (history s') = 1%nat /\
  modalState s' = mkModalState false None /\
  hooks s' = hooks s.
Proof.
  intros Hr Hp Htarget s'. subst s'.
  destruct (reachable_Inv s Hr) as [h lf a det rm fr hist Hq Hh
                                   |p' h lf lid tid a tms det rm fr hist Hq Hh Hp' Hl Ht Hr' Htm];
    cbn in Hp; [discriminate|].
  injection Hp as ->.
  assert (Hfacts :
    history (step (mkSystem (mkModalState true (Some p)) h lf
                (Some (mkCleanup (mkListener lid (mkModalState true (Some p))) tid))
                (mkEnv a hidden [mkListener lid (mkModalState true (Some p))] tms
                   true renderedFocusable det rm) fr hist) (Click target)) =
      hist ++ [OnClose; Resolve p None; SetModalState (mkModalState false None)] /\
    modalState (step (mkSystem (mkModalState true (Some p)) h lf
                (Some (mkCleanup (mkListener lid (mkModalState true (Some p))) tid))
                (mkEnv a hidden [mkListener lid (mkModalState true (Some p))] tms
                   true renderedFocusable det rm) fr hist) (Click target)) =
      mkModalState false None /\
    hooks (step (mkSystem (mkModalState true (Some p)) h lf
                (Some (mkCleanup (mkListener lid (mkModalState true (Some p))) tid))
                (mkEnv a hidden [mkListener lid (mkModalState true (Some p))] tms
                   true renderedFocusable det rm) fr hist) (Click target)) = h).
  { destruct target; try discriminate Htarget; eval_step; eval_focus; repeat split. }
  destruct Hfacts as (Hhist & Hms & Hhooks).
  split; [exact Hhist|]. split; [|split; [exact Hms | exact Hhooks]].
  etransitivity; [exact (f_equal (fulfillments p) Hhist)|]. unfold fulfillments.
  rewrite resolvedIds_app. cbn [resolvedIds].
  rewrite list.filter_app, (filter_absent p _ Hr').
  rewrite filter_cons_True by reflexivity. reflexivity.
Qed.

Lemma cancel_resolves_with_null_witness :
  history (step justOpened (Click CancelButton)) =
    history justOpened ++
      [OnClose; Resolve 1%nat None; SetModalState (mkModalState false None)].
Proof.
  apply (cancel_resolves_with_null justOpened 1%nat CancelButton
           reachable_justOpened eq_refl eq_refl).
Defined.

(** A click calls the close callback exactly when the dialog is rendered
    and the click is on the backdrop itself or on Cancel, and then once:
    a click anywhere else in the panel never closes the modal. *)
Theorem click_calls_onClose (s : System) (target : Elem) :
  filter isOnClose (trace (exec (dispatch s (Click target)) (startBatch s))) =
    if dialogRendered (document s) && isCloseTarget target then [OnClose] else [].
Proof.
  destruct s as [[opened slot] h lf c [a ov ls tms rendered pf det rm] fr hist].
  unfold dispatch, startBatch. cbn.
  destruct rendered, slot, target; cbn; eval_core; eval_focus;
    try contradiction; try (exfalso; auto; fail); reflexivity.
Qed.

(** ** Keys *)

(** Whatever the state and whatever the key, a key pressed while focus is
    inside the panel changes nothing: no handler of the modal hears it. *)
Theorem keydown_inside_panel_swallowed (s : System) (e : KeyboardEvent) (n : Elem) :
  activeElement (document s) = Some n ->
  panelContains n = true ->
  let s' := step s (KeyDown e) in
  modalState s' = modalState s /\
  hooks s' = hooks s /\
  document s' = document s /\
  history s' = history s /\
  effectCleanup s' = effectCleanup s /\
  defaultPrevented (exec (dispatch s (KeyDown e)) (startBatch s)) = false.
Proof.
  intros Ha Hn s'. subst s'. unfold step.
  rewrite (keydown_inside_panel_unheard s e n Ha Hn). cbn.
  rewrite app_nil_r. repeat split.
Qed.

Lemma keydown_inside_panel_swallowed_witness :
  modalState (step focusInDialog (KeyDown escape)) = modalState focusInDialog.
Proof.
  apply (keydown_inside_panel_swallowed focusInDialog escape NameInput);
    reflexivity.
Defined.

(** In every open state the page can reach, Tab pressed while focus is
    outside the dialog brings focus to the name input, and Shift+Tab to
    the submit button. *)
Theorem tab_outside_brings_focus_back (s : System) (node : Elem) (shift : bool) :
  reachable s ->
  isOpen (modalState s) = true ->
  activeElement (document s) = Some node ->
  inDialog node = false ->
  activeElement (document (step s (KeyDown (mkKey Tab shift)))) =
    Some (if shift then SubmitButton else NameInput).
Proof.
  intros Hr Hopen Ha Hout.
  apply tab_outside_panel_trapped; [apply reachable_Inv, Hr | exact Hopen|].
  rewrite Ha. exact Hout.
Qed.

Lemma tab_outside_brings_focus_back_witness :
  activeElement (document (step justOpened (KeyDown tab))) = Some NameInput.
Proof.
  apply (tab_outside_brings_focus_back justOpened OpenButton false
           reachable_justOpened); reflexivity.
Defined.

(** In every state the page can reach, no click and no key press changes
    the values, errors or touched flags of the form: of all the ways to
    close the modal, only a submit resets them. *)
Theorem clicks_and_keys_keep_form (s : System) (ev : Event) :
  reachable s -> isPointerOrKey ev = true -> hooks (step s ev) = hooks s.
Proof. intros Hr Hev. apply hooks_pointer_or_key; [apply reachable_Inv, Hr | exact Hev]. Qed.

Lemma clicks_and_keys_keep_form_witness :
  hooks (step typedA (Click CancelButton)) = hooks typedA.
Proof.
  apply (clicks_and_keys_keep_form typedA (Click CancelButton) reachable_typedA).
  reflexivity.
Defined.

Lemma form_event_trace (s : System) (ev : Event) :
  isFormEvent ev = true ->
  exists tr, history (step s ev) = history s ++ tr /\
             forallb isFormUpdate tr = true.
Proof.
  destruct ev; try discriminate; intros _; unfold step, dispatch;
    destruct (dialogRendered (document s));
    unfold handleInputChange, handleBlur, startBatch; unfold_handler; cbn;
    try destruct (isTouched (touched (hooks s)) field); cbn;
    eexists; split; reflexivity.
Qed.

Lemma form_update_quiet (tr : list Action) :
  forallb isFormUpdate tr = true ->
  resolvedIds tr = [] /\ filter isOnClose tr = [] /\ filter isOnSubmit tr = [].
Proof.
  induction tr as [|x tr IH]; [repeat split|].
  cbn [forallb]. rewrite andb_true_iff. intros [Hx Htr].
  destruct (IH Htr) as (H1 & H2 & H3).
  destruct x; try discriminate Hx; cbn; repeat split; assumption.
Qed.

(** Typing and leaving fields never ends the session: after any sequence
    of input changes and blurs, from any state, the page state and the
    document are as before, no callback has been called and no promise
    has been resolved. *)
Theorem typing_never_closes (s : System) (evs : list Event) :
  forallb isFormEvent evs = true ->
  modalState (run s evs) = modalState s /\
  document (run s evs) = document s /\
  resolvedIds (history (run s evs)) = resolvedIds (history s) /\
  filter isOnClose (history (run s evs)) = filter isOnClose (history s) /\
  filter isOnSubmit (history (run s evs)) = filter isOnSubmit (history s).
Proof.
  intros Hall.
  destruct (form_events_frame s evs Hall) as [Hm Hd].
  split; [exact Hm|]. split; [exact Hd|].
  clear Hm Hd. revert s. induction evs as [|ev evs IH]; intros s; [repeat split|].
  cbn in Hall. apply andb_true_iff in Hall as [Hev Hall].
  change (run s (ev :: evs)) with (run (step s ev) evs).
  destruct (IH Hall (step s ev)) as (H1 & H2 & H3).
  destruct (form_event_trace s ev Hev) as (tr & Htr & Hquiet).
  apply form_update_quiet in Hquiet as (Q1 & Q2 & Q3).
  rewrite H1, H2, H3, Htr, resolvedIds_app, !list.filter_app, Q1, Q2, Q3, !app_nil_r.
  repeat split.
Qed.

Lemma typing_never_closes_witness :
  modalState typedA = modalState justOpened /\
  resolvedIds (history typedA) = resolvedIds (history justOpened).
Proof.
  pose proof (typing_never_closes justOpened
                [Change key_name [65]; Blur key_name] eq_refl) as H.
  destruct H as (H1 & _ & H2 & _). split; assumption.
Defined.

(** ** Focus stays in the document *)

Ltac decide_hyps :=
  repeat match goal with
  | H : bool_decide _ = true |- _ => apply bool_decide_eq_true in H
  | H : bool_decide _ = false |- _ => apply bool_decide_eq_false in H
  | H : negb _ = true |- _ => apply negb_true_iff in H
  | H : negb _ = false |- _ => apply negb_false_iff in H
  end.

Ltac split_node :=
  match goal with
  | |- context [inDialog ?x] => is_var x; destruct x
  | |- context [bool_decide ?P] => destruct (bool_decide P) eqn:?
  | |- context [decide ?P] => destruct (decide P)
  | |- context [match ?x with _ => _ end] => is_var x; destruct x
  end.

Ltac close_connected :=
  let H := fresh "Hfc" in
  intros H;
  unfold focusConnected, focusEnv, connected in *; cbn in *;
  repeat (split_node; cbn in * );
  try contradiction; try reflexivity; try assumption; try discriminate;
  try (exfalso; decide_hyps; set_solver).

Lemma focusConnected_step (s : System) (ev : Event) :
  Inv s -> focusConnected (document s) -> focusConnected (document (step s ev)).
Proof.
  intros HI.
  step_cases HI ev close_connected.
Qed.

Lemma reachable_focusConnected (s : System) :
  reachable s -> focusConnected (document s).
Proof.
  apply (reachable_invariant (fun s => focusConnected (document s))).
  - intros m. reflexivity.
  - apply focusConnected_step.
Qed.

(** Opening and then closing, by Cancel, by a click on the backdrop or
    by Escape, with or without the focus timer having fired in between,
    gives back the document as it was before the open: same focused
    element, no scroll lock, no listener, no timer. *)
Theorem open_close_round_trip (s : System) (target : Elem) :
  reachable s ->
  isOpen (modalState s) = false ->
  isCloseTarget target = true ->
  document (run s [Click OpenButton; Click target]) = document s /\
  document (run s [Click OpenButton; TimerFired (S (S (fresh s))); Click target]) =
    document s /\
  document (run s [Click OpenButton; KeyDown escape]) = document s.
Proof.
  intros Hr Hclosed Htarget.
  pose proof (reachable_focusConnected s Hr) as Hfc.
  destruct (reachable_Inv s Hr) as [h lf a det rm fr hist Hq Hh
                                   |p h lf lid tid a tms det rm fr hist Hq Hh Hp Hl Ht Hr' Htm];
    cbn in Hclosed; [|discriminate].
  unfold focusConnected in Hfc. cbn in Hfc.
  destruct a as [node|]; [|contradiction].
  unfold run. cbn [fold_left].
  destruct target; try discriminate Htarget;
    destruct node; try discriminate Hfc;
    unfold connected in Hfc; cbn in Hfc;
    repeat split;
    repeat (progress (eval_step; eval_focus;
                      rewrite ?isPending_one;
                      rewrite ?bool_decide_eq_true_2 by reflexivity));
    unfold focusEnv, connected; cbn;
    try rewrite Hfc; try reflexivity.
Qed.

Lemma open_close_round_trip_witness :
  document (run (initialSystem false) [Click OpenButton; TimerFired 2; Click Overlay]) =
    document (initialSystem false).
Proof.
  assert (Hr : reachable (initialSystem false)) by (exists false, []; reflexivity).
  apply (open_close_round_trip (initialSystem false) Overlay Hr eq_refl eq_refl).
Defined.

(** ** The key listener, when it runs *)

(** What [handleKeyDown] does with Tab in a rendered dialog with a first
    and a last focusable element.  Forward from the last element, or
    from outside the panel, it cancels the default action and focuses
    the first; backward from the first, or from outside, the last.  With
    focus on any other element of the panel it does nothing at all, so
    the browser moves focus as usual.  In no case does it queue a state
    update or call a callback. *)
Theorem handleKeyDown_focus_trap (props : ModalProps) (b : Batch) (first lst : Elem) :
  dialogRendered (dom b) = true ->
  list.head (panelFocusable (dom b)) = Some first ->
  list.last (panelFocusable (dom b)) = Some lst ->
  let forward := exec (handleKeyDown props tab) b in
  let backward := exec (handleKeyDown props shiftTab) b in
  (activeElement (dom b) = Some lst \/
     containsNode Panel (activeElement (dom b)) = false ->
   dom forward = focusEnv first (dom b) /\ defaultPrevented forward = true) /\
  (activeElement (dom b) = Some first \/
     containsNode Panel (activeElement (dom b)) = false ->
   dom backward = focusEnv lst (dom b) /\ defaultPrevented backward = true) /\
  (forall n, activeElement (dom b) = Some n -> panelContains n = true ->
     (n <> lst -> forward = b) /\ (n <> first -> backward = b)) /\
  queuedHooks forward = queuedHooks b /\ trace forward = trace b /\
  queuedHooks backward = queuedHooks b /\ trace backward = trace b.
Proof.
  intros Hd Hfirst Hlast forward backward.
  assert (Hshape : forall shift,
    exec (handleKeyDown props (mkKey Tab shift)) b =
      if (if shift then sameNode (activeElement (dom b)) (Some first)
          else sameNode (activeElement (dom b)) (Some lst))
         || negb (containsNode Panel (activeElement (dom b)))
      then mkBatch (queuedHooks b) (queuedModalState b)
             (focusEnv (if shift then lst else first) (dom b)) (trace b)
             (propagationStopped b) true
      else b).
  { intros shift.
    unfold handleKeyDown, getFocusableElements, modalRef. unfold_handler. cbn.
    rewrite Hd, Hfirst, Hlast.
    destruct (decide (length (panelFocusable (dom b)) = 0%nat)) as [Hlen|_].
    { destruct (panelFocusable (dom b)); discriminate. }
    destruct shift;
      match goal with
      | |- context [if ?c then _ else _] => destruct c
      end; try reflexivity; destruct b; reflexivity. }
  subst forward backward. unfold tab, shiftTab. rewrite !Hshape.
  split; [|split; [|split]].
  - intros [Ha|Ha]; rewrite Ha; cbn;
      rewrite ?bool_decide_eq_true_2 by reflexivity; rewrite ?orb_true_r;
      split; reflexivity.
  - intros [Ha|Ha]; rewrite Ha; cbn;
      rewrite ?bool_decide_eq_true_2 by reflexivity; rewrite ?orb_true_r;
      split; reflexivity.
  - intros n Ha Hn. rewrite Ha. cbn. rewrite Hn. cbn.
    split; intros Hne; rewrite bool_decide_eq_false_2 by exact Hne; reflexivity.
  - repeat split;
      match goal with
      | |- context [if ?c then _ else _] => destruct c
      end; reflexivity.
Qed.

Lemma handleKeyDown_focus_trap_witness :
  dom (exec (handleKeyDown (pageProps (modalState focusOnSubmit)) tab)
         (startBatch focusOnSubmit)) =
    focusEnv NameInput (dom (startBatch focusOnSubmit)).
Proof.
  apply (handleKeyDown_focus_trap (pageProps (modalState focusOnSubmit))
           (startBatch focusOnSubmit) NameInput SubmitButton);
    try reflexivity.
  left. reflexivity.
Defined.
